(** * backend/utils.py: diarization merging and transcript formatting

    A shallow embedding of [src/backend/utils.py] and of the parts of
    [pyannote.core], [numpy] and the Python runtime that its functions
    call, followed by the properties stated about them.

    Conventions.
    - Python [str] is Rocq's [string]; a character is a code point below
      256.
    - Times that the code computes with (segment bounds, [collar], the
      sliding-window parameters) are integers counting microseconds, the
      resolution of pyannote's [SEGMENT_PRECISION = 1e-6]; this is exact
      arithmetic in place of binary64.
    - Numbers that the code only passes along (audio samples, the
      recognizer's timings and probabilities) are primitive floats.
    - A raised exception is a [Raise e] result; a handled one is a case
      analysis on it. *)

From Stdlib Require Import ZArith Lia String Ascii List PrimFloat.
From stdpp Require Import base option list gmap sets strings sorting.

#[local] Set Warnings "-register-all".
#[local] Open Scope Z_scope.

(** ** Python runtime: exceptions, results, values *)

Inductive exn : Type :=
  | IndexError
  | ValueError
  | TypeError
  | AttributeError.

Inductive result (A : Type) : Type :=
  | Ok (a : A)
  | Raise (e : exn).
Arguments Ok {A} a.
Arguments Raise {A} e.

#[global] Instance result_ret : MRet result := λ A, Ok.
#[global] Instance result_bind : MBind result := λ A B k r,
  match r with
  | Ok a => k a
  | Raise e => Raise e
  end.

(** JSON-like Python values; a [dict] keeps its insertion order. *)
Inductive pyval : Type :=
  | PNone
  | PInt (z : Z)
  | PFloat (f : float)
  | PStr (s : string)
  | PList (l : list pyval)
  | PDict (d : list (string * pyval)).

(** [d[k]] on a dict literal. *)
Fixpoint dict_get (k : string) (d : list (string * pyval)) : option pyval :=
  match d with
  | [] => None
  | (k', v) :: d' => if String.eqb k k' then Some v else dict_get k d'
  end.

Definition getitem (v : pyval) (k : string) : option pyval :=
  match v with
  | PDict d => dict_get k d
  | _ => None
  end.

Definition dict_keys (v : pyval) : list string :=
  match v with
  | PDict d => d.*1
  | _ => []
  end.

(** *** [str] slicing and [int(str)] *)

Fixpoint str_drop (n : nat) (s : string) : string :=
  match n, s with
  | O, _ => s
  | S n', String _ s' => str_drop n' s'
  | S _, EmptyString => EmptyString
  end.

(** [s[-2:]]: the slice starts at [max (len s - 2) 0]. *)
Definition str_last2 (s : string) : string :=
  str_drop (String.length s - 2) s.

(** Whitespace that [int] strips: ASCII [\t \n \v \f \r] and space
    ([Py_ISSPACE]), and among the code points 128..255 the Unicode
    spaces U+0085 and U+00A0. *)
Definition is_space (c : ascii) : bool :=
  let n := nat_of_ascii c in
  ((9 <=? n)%nat && (n <=? 13)%nat) || (n =? 32)%nat
  || (n =? 133)%nat || (n =? 160)%nat.

Definition digit_val (c : ascii) : option Z :=
  let n := nat_of_ascii c in
  if ((48 <=? n)%nat && (n <=? 57)%nat)%bool
  then Some (Z.of_nat (n - 48)) else None.

Definition is_underscore (c : ascii) : bool := (nat_of_ascii c =? 95)%nat.
Definition is_plus (c : ascii) : bool := (nat_of_ascii c =? 43)%nat.
Definition is_minus (c : ascii) : bool := (nat_of_ascii c =? 45)%nat.

Fixpoint skip_space (s : string) : string :=
  match s with
  | String c s' => if is_space c then skip_space s' else s
  | EmptyString => s
  end.

(** The digits after the first one: a digit, or one underscore followed
    by a digit; a doubled or trailing underscore is an error. *)
Fixpoint scan_digits (acc : Z) (s : string) : option (Z * string) :=
  match s with
  | EmptyString => Some (acc, s)
  | String c r =>
      match digit_val c with
      | Some d => scan_digits (10 * acc + d) r
      | None =>
          if is_underscore c then
            match r with
            | String c' r' =>
                match digit_val c' with
                | Some d => scan_digits (10 * acc + d) r'
                | None => None
                end
            | EmptyString => None
            end
          else Some (acc, s)
      end
  end.

(** [int(s)] for a [str] in base 10; [None] is [ValueError]. *)
Definition py_int (s : string) : option Z :=
  let s1 := skip_space s in
  let '(sign, s2) :=
    match s1 with
    | String c r =>
        if is_plus c then (1, r)
        else if is_minus c then (-1, r)
        else (1, s1)
    | EmptyString => (1, s1)
    end in
  match s2 with
  | String c r =>
      match digit_val c with
      | Some d =>
          match scan_digits d r with
          | Some (v, rest) =>
              match skip_space rest with
              | EmptyString => Some (sign * v)
              | String _ _ => None
              end
          | None => None
          end
      | None => None
      end
  | EmptyString => None
  end.

(** ** [logging] *)

(** A label as [extract_speaker_id] may receive it: a [str], or an
    absent label ([None]). *)
Inductive label_arg : Type :=
  | LStr (s : string)
  | LNone.

(** One [logging.warning] call of [extract_speaker_id]: the label and the
    exception that the message interpolates. *)
Inductive log_record : Type :=
  | Warning (about : label_arg) (e : exn).

(** ** [pyannote.core] *)

Module Segment.
(** A segment is the pair [(start, end)]. *)
Abbreviation t := (Z * Z)%type.

Definition start (s : t) : Z := s.1.
Definition end_ (s : t) : Z := s.2.

Definition SEGMENT_PRECISION : Z := 1.

(** [__bool__]: a segment is empty unless it is longer than the
    precision. *)
Definition bool (s : t) : Datatypes.bool :=
  bool_decide (SEGMENT_PRECISION < end_ s - start s).

Definition duration (s : t) : Z :=
  if bool s then end_ s - start s else 0.

(** [__or__]: the union's extent. *)
Definition or (s other : t) : t :=
  if negb (bool s) then other
  else if negb (bool other) then s
  else (Z.min (start s) (start other), Z.max (end_ s) (end_ other)).

(** [__xor__]: the gap between two segments; undefined for an empty
    one. *)
Definition xor (s other : t) : result t :=
  if negb (bool s) || negb (bool other) then Raise ValueError
  else Ok (Z.min (end_ s) (end_ other), Z.max (start s) (start other)).

(** The dataclass order: by [start], then by [end]. *)
Definition le (s other : t) : Prop :=
  start s < start other ∨ (start s = start other ∧ end_ s ≤ end_ other).

#[global] Instance le_dec : RelDecision le.
Proof. intros s o; unfold le; apply _. Defined.
End Segment.

Module Timeline.
(** A timeline is a set of non-empty segments, iterated in order. *)
Abbreviation t := (gset Segment.t).

Definition new (segments : list Segment.t) : t :=
  list_to_set (filter (λ s, Is_true (Segment.bool s)) segments).

Definition iter (T : t) : list Segment.t :=
  merge_sort Segment.le (elements T).

(** The loop of [support_iter]; [new_segment] is the support segment
    being grown. *)
Fixpoint support_loop (collar : Z) (new_segment : Segment.t)
    (segments : list Segment.t) : result (list Segment.t) :=
  match segments with
  | [] => Ok [new_segment]
  | segment :: rest =>
      possible_gap ← Segment.xor segment new_segment;
      if negb (Segment.bool possible_gap)
         || bool_decide (Segment.duration possible_gap < collar)
      then support_loop collar (Segment.or new_segment segment) rest
      else out ← support_loop collar segment rest; Ok (new_segment :: out)
  end.

Definition support_iter (T : t) (collar : Z) : result (list Segment.t) :=
  match iter T with
  | [] => Ok []
  | first :: _ => support_loop collar first (iter T)
  end.

Definition support (T : t) (collar : Z) : result t :=
  segments ← support_iter T collar; Ok (new segments).
End Timeline.

(** [string_generator()]: "A", ..., "Z", "AA", "AB", ...; the [n]-th
    name it yields, counting from 0. *)
Definition ascii_uppercase (d : nat) : ascii := ascii_of_nat (65 + d).

Fixpoint string_generator_aux (fuel n : nat) (acc : string) : string :=
  match fuel with
  | O => acc
  | S fuel' =>
      let acc' := String (ascii_uppercase (n mod 26)) acc in
      if (n <? 26)%nat then acc'
      else string_generator_aux fuel' (n / 26 - 1) acc'
  end.

Definition string_generator (n : nat) : string :=
  string_generator_aux (S n) n EmptyString.

Module Annotation.
(** An annotation maps a (segment, track name) pair to a label. *)
Record t : Type := mk {
  uri : option string;
  modality : option string;
  tracks : gmap (Segment.t * string) string
}.

(** [Annotation(uri=uri)] *)
Definition new (uri : option string) : t := mk uri None ∅.

(** [self.empty()] *)
Definition empty (a : t) : t := mk (uri a) (modality a) ∅.

(** [self[segment, track] = label]; an empty segment is not added. *)
Definition setitem (a : t) (key : Segment.t * string) (label : string) : t :=
  if Segment.bool key.1
  then mk (uri a) (modality a) (<[key := label]> (tracks a))
  else a.

(** [itertracks(yield_label=True)]. Its keys are distinct, so the
    order of the enumeration does not show in [update]. *)
Definition itertracks (a : t) : list (Segment.t * string * string) :=
  map_to_list (tracks a).

(** [self.update(other)], which changes [self] in place; here the new
    value of [self]. *)
Definition update (a other : t) : t :=
  foldl (λ result '(key, label), setitem result key label)
        a (itertracks other).

(** [labels()]: the labels in use, sorted. *)
Definition labels (a : t) : list string :=
  merge_sort (λ x y, Is_true (String.leb x y))
             (elements (list_to_set (itertracks a).*2 : gset string)).

Definition label_timeline (a : t) (label : string) : Timeline.t :=
  Timeline.new ((filter (λ e, e.2 = label) (itertracks a)).*1.*1).

(** One label's round of [support]: the segments of
    [timeline.support(collar).support()], in order. *)
Definition support_segments (a : t) (collar : Z) (label : string)
    : result (list Segment.t) :=
  timeline ← Timeline.support (label_timeline a label) collar;
  final ← Timeline.support timeline 0;
  Ok (Timeline.iter final).

(** [support[segment, next(generator)] = label] for each segment;
    [n] counts the names taken from the generator. *)
Definition add_tracks (label : string) (st : nat * t)
    (segments : list Segment.t) : nat * t :=
  foldl (λ '(n, support) segment,
           (S n, setitem support (segment, string_generator n) label))
        st segments.

Fixpoint support_labels (a : t) (collar : Z) (st : nat * t)
    (labels : list string) : result (nat * t) :=
  match labels with
  | [] => Ok st
  | label :: labels' =>
      segments ← support_segments a collar label;
      support_labels a collar (add_tracks label st segments) labels'
  end.

(** [self.support(collar)] *)
Definition support (a : t) (collar : Z) : result t :=
  st ← support_labels a collar (0%nat, empty a) (labels a); Ok st.2.

(** [__eq__] compares the tracks and their labels only. *)
Definition eq (a b : t) : Prop := tracks a = tracks b.
End Annotation.

Module SlidingWindow.
Record t : Type := mk {
  duration : Z;
  step : Z;
  start : Z;
  end_ : option Z   (* [None] is [np.inf] *)
}.

(** [SlidingWindow(duration, step, start)] *)
Definition init (duration step start : Z) : result t :=
  if bool_decide (duration ≤ 0) then Raise ValueError
  else if bool_decide (step ≤ 0) then Raise ValueError
  else Ok (mk duration step start None).
End SlidingWindow.

(** ** [numpy] *)

Module np.
(** A 2-D array of shape [(length rows, ncols)]. *)
Record ndarray : Type := mk {
  ncols : nat;
  rows : list (list float)
}.

Definition shape0 (a : ndarray) : nat := length (rows a).

(** [np.concatenate(arrays, axis=0)]: the arrays must agree on every
    dimension but the first, and there must be one at least. *)
Definition concatenate (arrays : list ndarray) : result ndarray :=
  match arrays with
  | [] => Raise ValueError
  | first :: _ =>
      if forallb (λ a, (ncols a =? ncols first)%nat) arrays
      then Ok (mk (ncols first) (List.concat (rows <$> arrays)))
      else Raise ValueError
  end.

(** [a.astype(dtype)]: every element converted by [cast]. *)
Definition astype (cast : float → float) (a : ndarray) : ndarray :=
  mk (ncols a) (map cast <$> rows a).

(** [a.reshape(-1)]: the elements in row-major order, as a 1-D array. *)
Definition reshape_flat (a : ndarray) : list float := List.concat (rows a).
End np.

Module SlidingWindowFeature.
Record t : Type := mk {
  data : np.ndarray;
  sliding_window : SlidingWindow.t;
  labels : option (list string)
}.

(** [SlidingWindowFeature(data, sliding_window)] *)
Definition init (data : np.ndarray) (sliding_window : SlidingWindow.t) : t :=
  mk data sliding_window None.
End SlidingWindowFeature.

(** ** faster-whisper's result objects *)

Module Word.
Record t : Type := mk {
  word : string;
  start : float;
  end_ : float;
  probability : float
}.
End Word.

Module RecognizedSegment.
Record t : Type := mk {
  seek : Z;
  start : float;
  end_ : float;
  text : string;
  tokens : list Z;
  temperature : float;
  avg_logprob : float;
  compression_ratio : float;
  no_speech_prob : float;
  id : Z;
  words : list Word.t
}.
End RecognizedSegment.

Module TranscriptionInfo.
Record t : Type := mk {
  language : string
}.
End TranscriptionInfo.

(** ** [str] methods and [os.path] *)

(** [s.replace(old, new)] for one-character [old] and [new]. *)
Fixpoint str_replace1 (old new : ascii) (s : string) : string :=
  match s with
  | EmptyString => EmptyString
  | String c r =>
      String (if Ascii.eqb c old then new else c) (str_replace1 old new r)
  end.

(** [c.upper()] for a character below 128. *)
Definition ascii_upper (c : ascii) : ascii :=
  let n := nat_of_ascii c in
  if ((97 <=? n)%nat && (n <=? 122)%nat)%bool then ascii_of_nat (n - 32) else c.

(** [s.upper()] for a [str] of characters below 128. *)
Fixpoint str_upper (s : string) : string :=
  match s with
  | EmptyString => EmptyString
  | String c r => String (ascii_upper c) (str_upper r)
  end.

(** [s.rfind(c)]: the last index of [c] in [s], or -1. *)
Fixpoint str_rfind (c : ascii) (s : string) : Z :=
  match s with
  | EmptyString => -1
  | String x r =>
      let k := str_rfind c r in
      if 0 <=? k then k + 1 else if Ascii.eqb x c then 0 else -1
  end.

(** [s[:n]] *)
Fixpoint str_take (n : nat) (s : string) : string :=
  match n, s with
  | S n', String c r => String c (str_take n' r)
  | _, _ => EmptyString
  end.

(** [s == c * len(s)] *)
Fixpoint str_all (c : ascii) (s : string) : bool :=
  match s with
  | EmptyString => true
  | String x r => Ascii.eqb x c && str_all c r
  end.

(** [s.rstrip(c)] *)
Fixpoint str_rstrip (c : ascii) (s : string) : string :=
  match s with
  | EmptyString => EmptyString
  | String x r => if str_all c s then EmptyString else String x (str_rstrip c r)
  end.

Module os_path.
(** The separator of [posixpath]. *)
Definition sep : ascii := "/"%char.

(** [os.path.dirname(p)] of [posixpath]. *)
Definition dirname (p : string) : string :=
  let i := str_rfind sep p + 1 in
  let head := str_take (Z.to_nat i) p in
  if negb (String.eqb head EmptyString) && negb (str_all sep head)
  then str_rstrip sep head
  else head.
End os_path.

(** The file system as the code sees it: a state of type [fs] and the
    calls that the code makes on it. A call returns, or raises an
    exception of type [E] (the subclasses of [Exception], [OSError]
    among them). *)
Inductive outcome (E : Type) : Type :=
  | Returned
  | Raised (e : E).
Arguments Returned {E}.
Arguments Raised {E} e.

Record os_ops (fs E : Type) : Type := mk_os_ops {
  os_path_exists : fs → string → bool;
  os_makedirs : fs → string → fs * outcome E;
  shutil_rmtree : fs → string → fs * outcome E;
  wavfile_write : fs → string → Z → list float → fs * outcome E
}.
Arguments os_path_exists {fs E} _ _ _.
Arguments os_makedirs {fs E} _ _ _.
Arguments shutil_rmtree {fs E} _ _ _.
Arguments wavfile_write {fs E} _ _ _ _ _.

(** The [logging] calls of the file helpers. *)
Inductive io_log (E : Type) : Type :=
  | Info_saved (path : string)
  | Info_deleted (folder : string)
  | Warning_delete_failed (folder : string) (e : E)
  | Info_missing (folder : string).
Arguments Info_saved {E} path.
Arguments Info_deleted {E} folder.
Arguments Warning_delete_failed {E} folder e.
Arguments Info_missing {E} folder.

(** ** backend/utils.py *)

Module utils.

(** [collar=0.05] *)
Definition default_collar : Z := 50000.

(** The [for] loop of [concat]: the running annotation and the list
    of buffers. *)
Definition concat_loop (annotation : Annotation.t) (data : list np.ndarray)
    (chunks : list (Annotation.t * SlidingWindowFeature.t))
    : Annotation.t * list np.ndarray :=
  foldl (λ '(annotation, data) '(ann, wav),
           (Annotation.update annotation ann,
            data ++ [SlidingWindowFeature.data wav]))
        (annotation, data) chunks.

Definition concat (chunks : list (Annotation.t * SlidingWindowFeature.t))
    (collar : Z) : result (Annotation.t * SlidingWindowFeature.t) :=
  match chunks with
  | [] => Raise IndexError
  | (first_annotation, first_waveform) :: _ =>
      let annotation := Annotation.new (Annotation.uri first_annotation) in
      let '(annotation, data) := concat_loop annotation [] chunks in
      annotation ← Annotation.support annotation collar;
      window ← SlidingWindow.init
        (SlidingWindow.duration (SlidingWindowFeature.sliding_window first_waveform))
        (SlidingWindow.step (SlidingWindowFeature.sliding_window first_waveform))
        (SlidingWindow.start (SlidingWindowFeature.sliding_window first_waveform));
      data ← np.concatenate data;
      Ok (annotation, SlidingWindowFeature.init data window)
  end.

(** [jsonify_transcription]; the constant [SPEAKER_MAPPING] of
    [config] is a parameter. *)
Definition jsonify_transcription (SPEAKER_MAPPING : gmap Z string)
    (transcription : list (Z * string * float * float)) : list pyval :=
  foldl (λ result '(speaker, text, start, end_),
           result ++ [PDict [("speaker"%string,
                               match SPEAKER_MAPPING !! speaker with
                               | Some name => PStr name
                               | None => PInt speaker
                               end);
                              ("text"%string, PStr text);
                              ("start"%string, PFloat start);
                              ("end"%string, PFloat end_)]])
        [] transcription.

Definition concatenate_segments (segments : list RecognizedSegment.t) : string :=
  foldl (λ transcription_text segment,
           (transcription_text ++ RecognizedSegment.text segment)%string)
        EmptyString segments.

Definition jsonify_word (word : Word.t) : pyval :=
  PDict [("word"%string, PStr (Word.word word));
         ("start"%string, PFloat (Word.start word));
         ("end"%string, PFloat (Word.end_ word));
         ("probability"%string, PFloat (Word.probability word));
         ("tokens"%string, PNone)].

Definition jsonify_segment (segment : RecognizedSegment.t) : pyval :=
  PDict [("seek"%string, PInt (RecognizedSegment.seek segment));
         ("start"%string, PFloat (RecognizedSegment.start segment));
         ("end"%string, PFloat (RecognizedSegment.end_ segment));
         ("text"%string, PStr (RecognizedSegment.text segment));
         ("tokens"%string, PList (PInt <$> RecognizedSegment.tokens segment));
         ("temperature"%string, PFloat (RecognizedSegment.temperature segment));
         ("avg_logprob"%string, PFloat (RecognizedSegment.avg_logprob segment));
         ("compression_ratio"%string,
            PFloat (RecognizedSegment.compression_ratio segment));
         ("no_speech_prob"%string,
            PFloat (RecognizedSegment.no_speech_prob segment));
         ("id"%string, PInt (RecognizedSegment.id segment));
         ("words"%string,
            PList (jsonify_word <$> RecognizedSegment.words segment))].

Definition format_transcription (segments : list RecognizedSegment.t)
    (info : TranscriptionInfo.t) : pyval :=
  let language := TranscriptionInfo.language info in
  let text := concatenate_segments segments in
  let segments := jsonify_segment <$> segments in
  PDict [("language"%string, PStr language);
         ("text"%string, PStr text);
         ("segments"%string, PList segments)].

(** The [try] body of [extract_speaker_id]: slicing [None] raises
    [TypeError], [int] of a non-number raises [ValueError]. *)
Definition extract_speaker_id_try (speaker_label : label_arg) : result Z :=
  match speaker_label with
  | LStr s =>
      match py_int (str_last2 s) with
      | Some speaker_number => Ok speaker_number
      | None => Raise ValueError
      end
  | LNone => Raise TypeError
  end.

(** [extract_speaker_id]: the records logged and the outcome;
    [except (ValueError, TypeError)] handles these two only. *)
Definition extract_speaker_id (speaker_label : label_arg)
    : list log_record * result Z :=
  match extract_speaker_id_try speaker_label with
  | Ok speaker_number => ([], Ok speaker_number)
  | Raise ValueError => ([Warning speaker_label ValueError], Ok (-1))
  | Raise TypeError => ([Warning speaker_label TypeError], Ok (-1))
  | Raise e => ([], Raise e)
  end.

(** [format_whisper_model_name] *)
Definition format_whisper_model_name (model_name : string) : string :=
  str_upper (str_replace1 "-" "_" model_name).

(** [reformat_chunk]; [float32] is the conversion of one sample that
    [astype("float32")] applies. *)
Definition reformat_chunk (float32 : float → float)
    (chunk : SlidingWindowFeature.t) : list float :=
  np.reshape_flat (np.astype float32 (SlidingWindowFeature.data chunk)).

(** [sample_rate=16000] *)
Definition default_sample_rate : Z := 16000.

(** [save_batch_to_wav]: the new file system, the records logged and
    the outcome. *)
Definition save_batch_to_wav {fs E : Type} (os : os_ops fs E) (batch : list float)
    (path : string) (sample_rate : Z) (σ : fs)
    : fs * list (io_log E) * outcome E :=
  let folder := os_path.dirname path in
  let '(σ1, made) :=
    if negb (String.eqb folder EmptyString) && negb (os_path_exists os σ folder)
    then os_makedirs os σ folder
    else (σ, Returned) in
  match made with
  | Raised e => (σ1, [], Raised e)
  | Returned =>
      match wavfile_write os σ1 path sample_rate batch with
      | (σ2, Raised e) => (σ2, [], Raised e)
      | (σ2, Returned) => (σ2, [Info_saved path], Returned)
      end
  end.

(** [delete_temp_folder]; [except Exception] handles every exception of
    [rmtree]. *)
Definition delete_temp_folder {fs E : Type} (os : os_ops fs E)
    (temp_folder_path : string) (σ : fs) : fs * list (io_log E) * outcome E :=
  let folder_name := os_path.dirname temp_folder_path in
  if negb (String.eqb folder_name EmptyString) && os_path_exists os σ folder_name
  then
    match shutil_rmtree os σ folder_name with
    | (σ1, Returned) => (σ1, [Info_deleted folder_name], Returned)
    | (σ1, Raised e) => (σ1, [Warning_delete_failed folder_name e], Returned)
    end
  else (σ, [Info_missing folder_name], Returned).

(** [cleanup]; the default [TEMP_FILE_PATH] of [config] is the caller's
    to pass. *)
Definition cleanup {fs E : Type} (os : os_ops fs E) (temp_path : string) (σ : fs)
    : fs * list (io_log E) * outcome E :=
  delete_temp_folder os temp_path σ.

End utils.

(** ** The same program over a store of objects

    Python passes references: the chunks hold references to annotation
    and feature objects, and a feature holds references to its buffer
    and its window. [concat_st] is [utils.concat] with every object it
    reads, changes or creates kept in a store. *)

Abbreviation loc := positive.

Inductive object : Type :=
  | OAnnotation (a : Annotation.t)
  | OArray (d : np.ndarray)
  | OWindow (w : SlidingWindow.t)
  | OFeature (data : loc) (sliding_window : loc) (labels : option (list string)).

Abbreviation store := (gmap loc object).

(** A computation on the store that may raise. *)
Definition M (A : Type) : Type := store → store * result A.

#[global] Instance M_ret : MRet M := λ A a σ, (σ, Ok a).
#[global] Instance M_bind : MBind M := λ A B k m σ,
  match m σ with
  | (σ', Ok a) => k a σ'
  | (σ', Raise e) => (σ', Raise e)
  end.

Definition raise {A : Type} (e : exn) : M A := λ σ, (σ, Raise e).

Definition lift {A : Type} (r : result A) : M A := λ σ, (σ, r).

(** Creating an object puts it at a location not in use. *)
Definition new_object (o : object) : M loc := λ σ,
  let l := fresh (dom σ) in (<[l := o]> σ, Ok l).

Definition read (l : loc) : M object := λ σ,
  match σ !! l with
  | Some o => (σ, Ok o)
  | None => (σ, Raise AttributeError)
  end.

Definition write (l : loc) (o : object) : M unit := λ σ, (<[l := o]> σ, Ok ()).

Definition read_annotation (l : loc) : M Annotation.t :=
  o ← read l;
  match o with
  | OAnnotation a => mret a
  | _ => raise AttributeError
  end.

Definition read_array (l : loc) : M np.ndarray :=
  o ← read l;
  match o with
  | OArray d => mret d
  | _ => raise AttributeError
  end.

Definition read_window (l : loc) : M SlidingWindow.t :=
  o ← read l;
  match o with
  | OWindow w => mret w
  | _ => raise AttributeError
  end.

(** The [data] and [sliding_window] attributes of a feature. *)
Definition read_feature (l : loc) : M (loc * loc) :=
  o ← read l;
  match o with
  | OFeature data sliding_window _ => mret (data, sliding_window)
  | _ => raise AttributeError
  end.

Fixpoint read_arrays (ls : list loc) : M (list np.ndarray) :=
  match ls with
  | [] => mret []
  | l :: ls' => d ← read_array l; ds ← read_arrays ls'; mret (d :: ds)
  end.

(** [annotation.update(ann)] changes the object at [annotation]. *)
Definition update_st (annotation ann : loc) : M unit :=
  self ← read_annotation annotation;
  other ← read_annotation ann;
  write annotation (OAnnotation (Annotation.update self other)).

Fixpoint concat_loop_st (annotation : loc) (data : list loc)
    (chunks : list (loc * loc)) : M (list loc) :=
  match chunks with
  | [] => mret data
  | (ann, wav) :: rest =>
      _ ← update_st annotation ann;
      f ← read_feature wav;
      concat_loop_st annotation (data ++ [f.1]) rest
  end.

Definition concat_st (chunks : list (loc * loc)) (collar : Z) : M (loc * loc) :=
  match chunks with
  | [] => raise IndexError
  | (first_annotation, first_waveform) :: _ =>
      first ← read_annotation first_annotation;
      annotation ← new_object (OAnnotation (Annotation.new (Annotation.uri first)));
      data ← concat_loop_st annotation [] chunks;
      merged ← read_annotation annotation;
      support ← lift (Annotation.support merged collar);
      annotation ← new_object (OAnnotation support);
      f ← read_feature first_waveform;
      sw ← read_window f.2;
      window ← lift (SlidingWindow.init (SlidingWindow.duration sw)
                       (SlidingWindow.step sw) (SlidingWindow.start sw));
      window ← new_object (OWindow window);
      arrays ← read_arrays data;
      array ← lift (np.concatenate arrays);
      data ← new_object (OArray array);
      feature ← new_object (OFeature data window None);
      mret (annotation, feature)
  end.

(** What a chunk's two references denote in a store. *)
Definition chunk_value (σ : store) (c : loc * loc)
    : option (Annotation.t * SlidingWindowFeature.t) :=
  match σ !! c.1, σ !! c.2 with
  | Some (OAnnotation a), Some (OFeature ld lw labels) =>
      match σ !! ld, σ !! lw with
      | Some (OArray d), Some (OWindow w) =>
          Some (a, SlidingWindowFeature.mk d w labels)
      | _, _ => None
      end
  | _, _ => None
  end.

(** ** Notions used in the statements *)

(** The annotation that [concat] has accumulated when its loop ends,
    before [support]. *)
Definition merged_annotation (chunks : list (Annotation.t * SlidingWindowFeature.t))
    : Annotation.t :=
  match chunks with
  | [] => Annotation.new None
  | (first_annotation, _) :: _ =>
      (utils.concat_loop (Annotation.new (Annotation.uri first_annotation))
                         [] chunks).1
  end.

(** The intervals of one speaker in an annotation. *)
Definition intervals (a : Annotation.t) (speaker : string) : gset Segment.t :=
  Annotation.label_timeline a speaker.

(** The signed distance from the earlier end to the later start: positive
    for a pause, not positive for intervals that touch or overlap. *)
Definition gap (s1 s2 : Segment.t) : Z :=
  Z.max (Segment.start s1) (Segment.start s2)
  - Z.min (Segment.end_ s1) (Segment.end_ s2).

(** [o] spans [s]. *)
Definition spans (o s : Segment.t) : Prop :=
  Segment.start o ≤ Segment.start s ∧ Segment.end_ s ≤ Segment.end_ o.

(** An annotation as the library builds it holds no empty segment. *)
Definition Annotation_wf (a : Annotation.t) : Prop :=
  map_Forall (λ (key : Segment.t * string) (_ : string),
                Is_true (Segment.bool key.1)) (Annotation.tracks a).

(** The condition under which [SlidingWindow] accepts its arguments. *)
Definition window_ok (w : SlidingWindow.t) : Prop :=
  0 < SlidingWindow.duration w ∧ 0 < SlidingWindow.step w.

(** All buffers have as many channels as the first one. *)
Definition same_channels (chunks : list (Annotation.t * SlidingWindowFeature.t)) : Prop :=
  match chunks with
  | [] => True
  | c0 :: _ =>
      forallb (λ c, (np.ncols (SlidingWindowFeature.data c.2)
                     =? np.ncols (SlidingWindowFeature.data c0.2))%nat) chunks = true
  end.

(** Two chunks with the same annotation and the same buffer; their
    windows may differ. *)
Definition same_content (c c' : Annotation.t * SlidingWindowFeature.t) : Prop :=
  c.1 = c'.1 ∧ SlidingWindowFeature.data c.2 = SlidingWindowFeature.data c'.2.

(** Some chunk's window differs from the first one's in [duration] or
    in [step]. *)
Definition windows_differ (chunks : list (Annotation.t * SlidingWindowFeature.t)) : Prop :=
  match chunks with
  | [] => False
  | c0 :: _ =>
      existsb (λ c,
          negb (SlidingWindow.duration (SlidingWindowFeature.sliding_window c.2)
                =? SlidingWindow.duration (SlidingWindowFeature.sliding_window c0.2))
          || negb (SlidingWindow.step (SlidingWindowFeature.sliding_window c.2)
                   =? SlidingWindow.step (SlidingWindowFeature.sliding_window c0.2)))
        chunks = true
  end.

(** Two consecutive support segments: the pause between them is at
    least [collar], and longer than the precision. *)
Definition sep (collar : Z) (a b : Segment.t) : Prop :=
  collar ≤ b.1 - a.2 ∧ 1 < b.1 - a.2.

(** The extent of the union of two non-empty segments. *)
Definition hull (c t : Segment.t) : Segment.t :=
  (Z.min c.1 t.1, Z.max c.2 t.2).

(** What [out] must satisfy to be the support of the timeline [T] for
    [collar]: the segments of [T] are non-empty; the segments of [out]
    are non-empty and separated; each segment of
    [T] lies within one of them, and so do two segments of [T] whose gap
    is shorter than [collar] or within the precision; its bounds are
    bounds of segments of [T]; and it does not reach across a pause of
    [T] that is neither shorter than [collar] nor within the precision. *)
Definition is_support (collar : Z) (T : Timeline.t) (out : list Segment.t) : Prop :=
  (∀ s : Segment.t, s ∈ T → 1 < s.2 - s.1)
  ∧ Forall (λ o : Segment.t, 1 < o.2 - o.1) out
  ∧ StronglySorted (sep collar) out
  ∧ (∀ s, s ∈ T → ∃ o, o ∈ out ∧ spans o s)
  ∧ (∀ s1 s2, s1 ∈ T → s2 ∈ T → gap s1 s2 < collar ∨ gap s1 s2 ≤ 1 →
       ∃ o, o ∈ out ∧ spans o s1 ∧ spans o s2)
  ∧ (∀ o, o ∈ out → (∃ s, s ∈ T ∧ o.1 = s.1) ∧ (∃ s, s ∈ T ∧ o.2 = s.2))
  ∧ (∀ e b, collar ≤ b - e → 1 < b - e →
       (∀ t : Segment.t, t ∈ T → t.2 ≤ e ∨ b ≤ t.1) →
       ∀ o : Segment.t, o ∈ out → o.2 ≤ e ∨ b ≤ o.1).

(** The number that a track name denotes: its letters as digits 1..26. *)
Fixpoint name_value (v : nat) (s : string) : nat :=
  match s with
  | EmptyString => v
  | String c r => name_value (v * 26 + (nat_of_ascii c - 64))%nat r
  end.

(** A computation is frame-safe outside [X] when it leaves every
    object of a part of the store that has no location in [X] as it is. *)
Definition frame_safe {A : Type} (X : gset loc) (m : M A) : Prop :=
  ∀ (σ0 σ σ' : store) r,
    σ0 ⊆ σ → dom σ0 ## X → m σ = (σ', r) → σ0 ⊆ σ'.

(** The integer that [int] reads from a two-character string: two
    digits; a digit after a space, a plus or a minus sign; or a digit
    before a space. *)
Definition last2_int (c1 c2 : ascii) : option Z :=
  match digit_val c1, digit_val c2 with
  | Some d1, Some d2 => Some (10 * d1 + d2)
  | None, Some d2 =>
      if is_space c1 || is_plus c1 then Some d2
      else if is_minus c1 then Some (- d2)
      else None
  | Some d1, None => if is_space c2 then Some d1 else None
  | None, None => None
  end.

(** What [extract_speaker_id] does with the outcome of [int]. *)
Definition speaker_id_outcome (speaker_label : label_arg) (parsed : option Z)
    : list log_record * result Z :=
  match parsed with
  | Some n => ([], Ok n)
  | None => ([Warning speaker_label ValueError], Ok (-1))
  end.

(** The strings of a list one after the other, nothing in between. *)
Definition join (l : list string) : string := foldr String.append EmptyString l.

(** A turn of the output of [jsonify_transcription]. *)
Definition turn (speaker : pyval) (text : string) (start end_ : float) : pyval :=
  PDict [("speaker"%string, speaker); ("text"%string, PStr text);
         ("start"%string, PFloat start); ("end"%string, PFloat end_)].

(** The decimal digit [d] as a character, and a number below 100
    written with two digits, as ["%02d"] writes it. *)
Definition digit_char (d : Z) : ascii := ascii_of_nat (48 + Z.to_nat d).

Definition two_digits (n : Z) : string :=
  String (digit_char (n / 10)) (String (digit_char (n mod 10)) EmptyString).

(** Every character of the string is below 128. *)
Fixpoint str_is_ascii (s : string) : bool :=
  match s with
  | EmptyString => true
  | String c r => (nat_of_ascii c <? 128)%nat && str_is_ascii r
  end.

(** No character of the string is [c]. *)
Fixpoint str_lacks (c : ascii) (s : string) : bool :=
  match s with
  | EmptyString => true
  | String x r => negb (Ascii.eqb x c) && str_lacks c r
  end.

(** A lower-case letter a..z. *)
Definition is_lower (c : ascii) : bool :=
  let n := nat_of_ascii c in ((97 <=? n)%nat && (n <=? 122)%nat)%bool.

(** Every row of the array has [ncols] elements. *)
Definition ndarray_wf (a : np.ndarray) : Prop :=
  Forall (λ row, length row = np.ncols a) (np.rows a).

(** The state of [Annotation.support] after the labels [done]: every
    track carries a generated name below the counter and a segment of
    its label's support, and every such segment has a track. *)
Definition support_inv (a : Annotation.t) (collar : Z) (done : list string)
    (st : nat * Annotation.t) : Prop :=
  (∀ (s : Segment.t) track label,
      Annotation.tracks st.2 !! (s, track) = Some label →
      (∃ i, (i < st.1)%nat ∧ track = string_generator i)
      ∧ label ∈ done
      ∧ ∃ out, Annotation.support_segments a collar label = Ok out ∧ s ∈ out)
  ∧ (∀ label out (s : Segment.t),
      label ∈ done → Annotation.support_segments a collar label = Ok out →
      s ∈ out → ∃ track, Annotation.tracks st.2 !! (s, track) = Some label).

(** ** Example inputs *)

(** An annotation of the stream "s" with the given tracks. *)
Definition example_annotation (entries : list (Segment.t * string * string))
    : Annotation.t :=
  Annotation.mk (Some "s"%string) None (list_to_map entries).

(** A one-channel buffer of [n] frames with the given window. *)
Definition example_waveform (n : nat) (duration step start : Z)
    : SlidingWindowFeature.t :=
  SlidingWindowFeature.mk (np.mk 1 (replicate n [0%float]))
                          (SlidingWindow.mk duration step start None) None.

(** Two chunks: speaker "A" over [0 s, 2 s] in the first, and over
    [2.03 s, 4 s] in the second. *)
Definition example_chunks : list (Annotation.t * SlidingWindowFeature.t) :=
  [(example_annotation [((0, 2000000), "A", "A")]%string,
    example_waveform 2 500000 100000 0);
   (example_annotation [((2030000, 4000000), "A", "A")]%string,
    example_waveform 3 500000 100000 2000000)].

(** Two chunks: speaker "A" over [0 s, 2 s] and over [3 s, 4 s]; the
    second window has another [duration] and another [step]. *)
Definition example_chunks_apart : list (Annotation.t * SlidingWindowFeature.t) :=
  [(example_annotation [((0, 2000000), "A", "A")]%string,
    example_waveform 2 500000 100000 0);
   (example_annotation [((3000000, 4000000), "A", "A")]%string,
    example_waveform 3 250000 50000 3000000)].

(** A store with two chunks: the annotations at 1 and 2, the features
    at 3 and 4, which share the window at 7 and have their buffers at 5
    and 6. *)
Definition example_store : store :=
  list_to_map
    [(1%positive, OAnnotation (example_annotation [((0, 2000000), "A", "A")]%string));
     (2%positive, OAnnotation (example_annotation [((2030000, 4000000), "A", "A")]%string));
     (3%positive, OFeature 5 7 None);
     (4%positive, OFeature 6 7 None);
     (5%positive, OArray (np.mk 1 [[0%float]; [0%float]]));
     (6%positive, OArray (np.mk 1 [[0%float]; [0%float]; [0%float]]));
     (7%positive, OWindow (SlidingWindow.mk 500000 100000 0 None))].

(** A file system for the examples: the set of the directories that
    exist; [makedirs] adds one, [rmtree] removes one, and writing a file
    changes no directory. *)
Definition example_os : os_ops (gset string) exn :=
  mk_os_ops (gset string) exn
    (λ σ p, bool_decide (p ∈ σ))
    (λ σ p, ({[ p ]} ∪ σ, Returned))
    (λ σ p, (σ ∖ {[ p ]}, Returned))
    (λ σ _ _ _, (σ, Returned)).

(** * Properties *)

(** ** Segments and the support loop *)

Ltac seg_unfold :=
  unfold gap, spans, Segment.or, Segment.xor, Segment.duration, Segment.bool,
    Segment.le, Segment.start, Segment.end_, Segment.SEGMENT_PRECISION in *;
  simpl in *.

Lemma Segment_bool_spec (s : Segment.t) :
  Is_true (Segment.bool s) ↔ 1 < s.2 - s.1.
Proof. seg_unfold. by rewrite bool_decide_spec. Qed.

#[global] Instance Segment_le_total : Total Segment.le.
Proof. intros [a b] [c d]. seg_unfold. lia. Qed.

#[global] Instance Segment_le_trans : Transitive Segment.le.
Proof. intros [a b] [c d] [e f]. seg_unfold. lia. Qed.

#[global] Instance Segment_le_antisymm : AntiSymm eq Segment.le.
Proof.
  intros [a b] [c d]. seg_unfold. intros H1 H2.
  assert (a = c ∧ b = d) as [-> ->] by lia. done.
Qed.

(** One iteration of the loop on non-empty segments. *)
Lemma support_loop_cons collar (c t : Segment.t) rest :
  1 < c.2 - c.1 → 1 < t.2 - t.1 →
  Timeline.support_loop collar c (t :: rest) =
    if decide (gap t c ≤ 1 ∨ gap t c < collar)
    then Timeline.support_loop collar (hull c t) rest
    else out ← Timeline.support_loop collar t rest; Ok (c :: out).
Proof.
  intros Hc Ht. destruct c as [c1 c2], t as [t1 t2]. unfold hull.
  simpl. seg_unfold.
  rewrite !bool_decide_eq_true_2 by lia. simpl.
  destruct (decide _) as [Hm|Hm].
  - case_bool_decide; simpl; [|done].
    rewrite bool_decide_eq_true_2 by lia. done.
  - rewrite bool_decide_eq_true_2 by lia. simpl.
    rewrite bool_decide_eq_false_2 by lia. done.
Qed.

Section support_loop.
Context (collar : Z).

Abbreviation ne := (λ s : Segment.t, 1 < s.2 - s.1).
Abbreviation starts_from := (λ c : Segment.t, Forall (λ t : Segment.t, c.1 ≤ t.1)).
Abbreviation by_start := (StronglySorted (λ a b : Segment.t, a.1 ≤ b.1)).

Lemma support_loop_total segs : ∀ c,
  ne c → Forall ne segs → ∃ out, Timeline.support_loop collar c segs = Ok out.
Proof.
  induction segs as [|t rest IH]; intros c Hc Hne; [by eexists|].
  apply Forall_cons in Hne as [Ht Hne].
  rewrite support_loop_cons by done.
  destruct (decide _).
  - apply IH; [unfold hull; simpl; lia | done].
  - destruct (IH t Ht Hne) as [out ->]. by eexists.
Qed.

(** The shape of the output: it starts with the segment grown from [c];
    its segments are non-empty, start no earlier than [c], and are
    separated. *)
Lemma support_loop_shape segs : ∀ c out,
  ne c → Forall ne segs → starts_from c segs → by_start segs →
  Timeline.support_loop collar c segs = Ok out →
  (∃ o out', out = o :: out' ∧ o.1 = c.1 ∧ c.2 ≤ o.2)
  ∧ Forall ne out ∧ starts_from c out ∧ StronglySorted (sep collar) out.
Proof.
  induction segs as [|t rest IH]; intros c out Hc Hne Hfrom Hsorted Hrun.
  - injection Hrun as <-. split; [by eexists _, _|].
    repeat split; repeat constructor; done.
  - apply Forall_cons in Hne as [Ht Hne].
    apply Forall_cons in Hfrom as [Hct Hfrom].
    apply StronglySorted_inv in Hsorted as [Hsorted Htrest].
    rewrite support_loop_cons in Hrun by done.
    destruct (decide _) as [Hm|Hm].
    + apply IH in Hrun; unfold hull in *; simpl in *; try done; try lia.
      * destruct Hrun as ((o & out' & -> & Ho1 & Ho2) & Hne' & Hfrom' & Hsep).
        split; [eexists _, _; split; [done|]; lia|].
        split; [done|]. split; [|done].
        eapply Forall_impl; [exact Hfrom'|]. simpl. lia.
      * eapply Forall_impl; [exact Htrest|]. simpl. lia.
    + destruct (Timeline.support_loop collar t rest) as [out'|] eqn:Hrest; [|done].
      injection Hrun as <-.
      apply IH in Hrest as ((o & out'' & -> & Ho1 & Ho2) & Hne' & Hfrom' & Hsep);
        try done.
      split; [by eexists _, _|].
      split; [by constructor|].
      split.
      * constructor; [lia|]. eapply Forall_impl; [exact Hfrom'|]. simpl. lia.
      * constructor; [done|].
        eapply Forall_impl; [exact Hfrom'|]. simpl.
        destruct c as [c1 c2], t as [t1 t2]. unfold sep. seg_unfold. lia.
Qed.

(** Every input segment lies within some output segment. *)
Lemma support_loop_cover segs : ∀ c out s,
  ne c → Forall ne segs → starts_from c segs → by_start segs →
  Timeline.support_loop collar c segs = Ok out →
  s ∈ c :: segs → ∃ o, o ∈ out ∧ spans o s.
Proof.
  induction segs as [|t rest IH]; intros c out s Hc Hne Hfrom Hsorted Hrun Hs.
  - injection Hrun as <-. apply list_elem_of_singleton in Hs as ->.
    exists c. split; [by left|]. seg_unfold; lia.
  - pose proof Hne as Hne0. pose proof Hfrom as Hfrom0. pose proof Hsorted as Hs0.
    apply Forall_cons in Hne as [Ht Hne].
    apply Forall_cons in Hfrom as [Hct Hfrom].
    apply StronglySorted_inv in Hsorted as [Hsorted Htrest].
    pose proof Hrun as Hrun0.
    rewrite support_loop_cons in Hrun by done.
    destruct (decide _) as [Hm|Hm].
    + assert (Hfrom' : starts_from (hull c t) rest).
      { eapply Forall_impl; [exact Hfrom|]. unfold hull. simpl. lia. }
      assert (Hc' : ne (hull c t)) by (unfold hull; simpl; lia).
      destruct (support_loop_shape _ _ _ Hc' Hne Hfrom' Hsorted Hrun)
        as ((o & out' & -> & Ho1 & Ho2) & _).
      apply elem_of_cons in Hs as [->|Hs];
        [|apply elem_of_cons in Hs as [->|Hs]].
      * exists o. split; [by left|]. unfold hull in *. seg_unfold. lia.
      * exists o. split; [by left|]. unfold hull in *. seg_unfold. lia.
      * apply (IH (hull c t) (o :: out') s); try done. by right.
    + destruct (Timeline.support_loop collar t rest) as [out'|] eqn:Hrest; [|done].
      injection Hrun as <-.
      apply elem_of_cons in Hs as [->|Hs].
      * exists c. split; [by left|]. seg_unfold; lia.
      * destruct (IH t out' s) as (o & Ho & Hspan); try done.
        exists o. split; [by right|done].
Qed.

(** Every bound of an output segment is a bound of an input segment. *)
Lemma support_loop_bounds segs : ∀ c out o,
  ne c → Forall ne segs →
  Timeline.support_loop collar c segs = Ok out → o ∈ out →
  (∃ s, s ∈ c :: segs ∧ o.1 = s.1) ∧ (∃ s, s ∈ c :: segs ∧ o.2 = s.2).
Proof.
  induction segs as [|t rest IH]; intros c out o Hc Hne Hrun Ho.
  - injection Hrun as <-. apply list_elem_of_singleton in Ho as ->.
    split; exists c; (split; [by left|done]).
  - apply Forall_cons in Hne as [Ht Hne].
    rewrite support_loop_cons in Hrun by done.
    destruct (decide _) as [Hm|Hm].
    + assert (Hc' : ne (hull c t)) by (unfold hull; simpl; lia).
      destruct (IH _ _ _ Hc' Hne Hrun Ho) as [(s1 & Hs1 & E1) (s2 & Hs2 & E2)].
      split.
      * apply elem_of_cons in Hs1 as [->|Hs1].
        -- unfold hull in E1. simpl in E1.
           destruct (Z.min_spec c.1 t.1) as [[_ E]|[_ E]]; rewrite E in E1.
           ++ exists c. split; [by left|done].
           ++ exists t. split; [right; by left|done].
        -- exists s1. split; [by do 2 right|done].
      * apply elem_of_cons in Hs2 as [->|Hs2].
        -- unfold hull in E2. simpl in E2.
           destruct (Z.max_spec c.2 t.2) as [[_ E]|[_ E]]; rewrite E in E2.
           ++ exists t. split; [right; by left|done].
           ++ exists c. split; [by left|done].
        -- exists s2. split; [by do 2 right|done].
    + destruct (Timeline.support_loop collar t rest) as [out'|] eqn:Hrest; [|done].
      injection Hrun as <-.
      apply elem_of_cons in Ho as [->|Ho].
      * split; exists c; (split; [by left|done]).
      * destruct (IH _ _ _ Ht Hne Hrest Ho) as [(s1 & Hs1 & E1) (s2 & Hs2 & E2)].
        split; [exists s1|exists s2]; (split; [by right|done]).
Qed.

(** A segment that starts less than [collar] after the end of [c], or
    within the precision of it, joins the segment grown from [c]. *)
Lemma support_loop_close segs : ∀ c out s,
  ne c → Forall ne segs → starts_from c segs → by_start segs →
  Timeline.support_loop collar c segs = Ok out →
  s ∈ segs → s.1 - c.2 < collar ∨ s.1 - c.2 ≤ 1 →
  ∃ o out', out = o :: out' ∧ o.1 = c.1 ∧ c.2 ≤ o.2 ∧ s.2 ≤ o.2.
Proof.
  induction segs as [|t rest IH]; intros c out s Hc Hne Hfrom Hsorted Hrun Hs Hnear.
  - by apply elem_of_nil in Hs.
  - apply Forall_cons in Hne as [Ht Hne].
    apply Forall_cons in Hfrom as [Hct Hfrom].
    apply StronglySorted_inv in Hsorted as [Hsorted Htrest].
    assert (Hts : t.1 ≤ s.1).
    { apply elem_of_cons in Hs as [->|Hs]; [lia|].
      rewrite Forall_forall in Htrest. by apply Htrest. }
    rewrite support_loop_cons in Hrun by done.
    destruct (decide _) as [Hm|Hm]; [|exfalso; apply Hm; seg_unfold; lia].
    assert (Hfrom' : starts_from (hull c t) rest).
    { eapply Forall_impl; [exact Hfrom|]. unfold hull. simpl. lia. }
    assert (Hc' : ne (hull c t)) by (unfold hull; simpl; lia).
    apply elem_of_cons in Hs as [->|Hs].
    + destruct (support_loop_shape _ _ _ Hc' Hne Hfrom' Hsorted Hrun)
        as ((o & out' & -> & Ho1 & Ho2) & _).
      exists o, out'. unfold hull in *. simpl in *. split; [done|]. lia.
    + destruct (IH _ _ s Hc' Hne Hfrom' Hsorted Hrun Hs)
        as (o & out' & -> & Ho1 & Ho2 & Ho3).
      { unfold hull. simpl. lia. }
      exists o, out'. unfold hull in *. simpl in *. split; [done|]. lia.
Qed.

(** Two input segments of which the later starts less than [collar]
    after the end of the earlier lie within one output segment. *)
Lemma support_loop_pair l1 : ∀ c out s1 l2 s2,
  ne c → Forall ne (l1 ++ s1 :: l2) →
  starts_from c (l1 ++ s1 :: l2) → by_start (l1 ++ s1 :: l2) →
  Timeline.support_loop collar c (l1 ++ s1 :: l2) = Ok out →
  s2 ∈ l2 → s2.1 - s1.2 < collar ∨ s2.1 - s1.2 ≤ 1 →
  ∃ o, o ∈ out ∧ spans o s1 ∧ spans o s2.
Proof.
  induction l1 as [|t l1 IH];
    intros c out s1 l2 s2 Hc Hne Hfrom Hsorted Hrun Hs2 Hnear; simpl app in *.
  - apply Forall_cons in Hne as [Ht Hne].
    apply Forall_cons in Hfrom as [Hct Hfrom].
    apply StronglySorted_inv in Hsorted as [Hsorted Htrest].
    assert (Hts : s1.1 ≤ s2.1) by (rewrite Forall_forall in Htrest; by apply Htrest).
    rewrite support_loop_cons in Hrun by done.
    destruct (decide _) as [Hm|Hm].
    + assert (Hfrom' : starts_from (hull c s1) l2).
      { eapply Forall_impl; [exact Hfrom|]. unfold hull. simpl. lia. }
      assert (Hc' : ne (hull c s1)) by (unfold hull; simpl; lia).
      destruct (support_loop_close _ _ _ s2 Hc' Hne Hfrom' Hsorted Hrun Hs2)
        as (o & out' & -> & Ho1 & Ho2 & Ho3).
      { unfold hull. simpl. lia. }
      exists o. split; [by left|]. unfold hull in *. seg_unfold. lia.
    + destruct (Timeline.support_loop collar s1 l2) as [out'|] eqn:Hrest; [|done].
      injection Hrun as <-.
      destruct (support_loop_close _ _ _ s2 Ht Hne Htrest Hsorted Hrest Hs2 Hnear)
        as (o & out'' & -> & Ho1 & Ho2 & Ho3).
      exists o. split; [right; by left|]. seg_unfold. lia.
  - apply Forall_cons in Hne as [Ht Hne].
    apply Forall_cons in Hfrom as [Hct Hfrom].
    apply StronglySorted_inv in Hsorted as [Hsorted Htrest].
    rewrite support_loop_cons in Hrun by done.
    destruct (decide _) as [Hm|Hm].
    + apply (IH (hull c t) out s1 l2 s2); try done.
      * unfold hull; simpl; lia.
      * eapply Forall_impl; [exact Hfrom|]. unfold hull. simpl. lia.
    + destruct (Timeline.support_loop collar t _) as [out'|] eqn:Hrest; [|done].
      injection Hrun as <-.
      destruct (IH t out' s1 l2 s2) as (o & Ho & Hspan); try done.
      exists o. split; [by right|done].
Qed.

(** If every segment ends by [e] or starts from [b], and the pause from
    [e] to [b] is neither shorter than [collar] nor within the precision,
    no output segment reaches across the pause. *)
Lemma support_loop_pause e b segs : ∀ c out,
  collar ≤ b - e → 1 < b - e →
  ne c → Forall ne segs → starts_from c segs → by_start segs →
  (c.2 ≤ e ∨ b ≤ c.1) → Forall (λ t : Segment.t, t.2 ≤ e ∨ b ≤ t.1) segs →
  Timeline.support_loop collar c segs = Ok out →
  Forall (λ o : Segment.t, o.2 ≤ e ∨ b ≤ o.1) out.
Proof.
  intros c out Hcollar Hprec. revert c out.
  induction segs as [|t rest IH];
    intros c out Hc Hne Hfrom Hsorted Hce Hall Hrun.
  - injection Hrun as <-. constructor; [done|constructor].
  - apply Forall_cons in Hne as [Ht Hne].
    apply Forall_cons in Hfrom as [Hct Hfrom].
    apply Forall_cons in Hall as [Hte Hall].
    apply StronglySorted_inv in Hsorted as [Hsorted Htrest].
    rewrite support_loop_cons in Hrun by done.
    destruct (decide _) as [Hm|Hm].
    + apply (IH (hull c t) out); try done.
      * unfold hull; simpl; lia.
      * eapply Forall_impl; [exact Hfrom|]. unfold hull. simpl. lia.
      * unfold hull. seg_unfold. lia.
    + destruct (Timeline.support_loop collar t rest) as [out'|] eqn:Hrest; [|done].
      injection Hrun as <-.
      constructor; [|by eapply IH].
      destruct Hce as [Hce|Hce]; [by left|right; done].
Qed.

(** Running the loop with collar 0 over separated segments changes
    nothing. *)
Lemma support_loop_separated rest : ∀ c,
  ne c → Forall ne rest → StronglySorted (sep collar) (c :: rest) →
  Timeline.support_loop 0 c rest = Ok (c :: rest).
Proof.
  induction rest as [|t rest IH]; intros c Hc Hne Hsep; [done|].
  apply Forall_cons in Hne as [Ht Hne].
  apply StronglySorted_inv in Hsep as [Hsep Hcsep].
  apply Forall_cons in Hcsep as [Hct _].
  rewrite support_loop_cons by done.
  destruct (decide _) as [Hm|Hm].
  - exfalso. unfold sep in Hct. seg_unfold. lia.
  - by rewrite IH.
Qed.

End support_loop.

(** ** Timelines *)

Lemma Timeline_new_elem (segments : list Segment.t) s :
  s ∈ Timeline.new segments ↔ s ∈ segments ∧ 1 < s.2 - s.1.
Proof.
  unfold Timeline.new. rewrite elem_of_list_to_set, list_elem_of_filter.
  rewrite Segment_bool_spec. tauto.
Qed.

Lemma Timeline_iter_elem (T : Timeline.t) s : s ∈ Timeline.iter T ↔ s ∈ T.
Proof.
  unfold Timeline.iter. rewrite merge_sort_Permutation. apply elem_of_elements.
Qed.

Lemma Timeline_iter_sorted (T : Timeline.t) :
  StronglySorted Segment.le (Timeline.iter T).
Proof. apply StronglySorted_merge_sort; apply _. Qed.

Lemma sorted_by_start (l : list Segment.t) :
  StronglySorted Segment.le l → StronglySorted (λ a b : Segment.t, a.1 ≤ b.1) l.
Proof.
  induction 1 as [|x l Hl IH Hx]; constructor; [done|].
  eapply Forall_impl; [exact Hx|]. intros y. seg_unfold. lia.
Qed.

Lemma separated_sorted collar (l : list Segment.t) :
  Forall (λ o : Segment.t, 1 < o.2 - o.1) l →
  StronglySorted (sep collar) l → StronglySorted Segment.le l ∧ NoDup l.
Proof.
  intros Hne Hsep. induction Hsep as [|x l Hl IH Hx].
  - split; constructor.
  - apply Forall_cons in Hne as [Hx1 Hne]. destruct (IH Hne) as [IH1 IH2].
    split.
    + constructor; [done|]. eapply Forall_impl; [exact Hx|].
      intros y. unfold sep. seg_unfold. lia.
    + constructor; [|done]. intros Hin.
      rewrite Forall_forall in Hx. specialize (Hx _ Hin).
      unfold sep in Hx. lia.
Qed.

(** A list of non-empty, separated segments is the iteration order of
    its own timeline. *)
Lemma Timeline_iter_new collar (out : list Segment.t) :
  Forall (λ o : Segment.t, 1 < o.2 - o.1) out →
  StronglySorted (sep collar) out →
  Timeline.iter (Timeline.new out) = out.
Proof.
  intros Hne Hsep. destruct (separated_sorted _ _ Hne Hsep) as [Hsorted Hnodup].
  apply (StronglySorted_unique Segment.le); [apply Timeline_iter_sorted|done|].
  unfold Timeline.iter, Timeline.new. rewrite merge_sort_Permutation.
  assert (filter (λ s, Is_true (Segment.bool s)) out = out) as ->.
  { clear Hsep Hsorted Hnodup. induction Hne as [|x l Hx Hl IH]; [done|].
    rewrite filter_cons_True by (by apply Segment_bool_spec). by rewrite IH. }
  by apply elements_list_to_set.
Qed.

Lemma support_iter_spec (T : Timeline.t) collar :
  (∀ s : Segment.t, s ∈ T → 1 < s.2 - s.1) →
  ∃ out, Timeline.support_iter T collar = Ok out ∧ is_support collar T out.
Proof.
  intros HT. unfold Timeline.support_iter.
  pose proof (Timeline_iter_sorted T) as Hle.
  pose proof (sorted_by_start _ Hle) as Hsorted.
  assert (Hne : Forall (λ s : Segment.t, 1 < s.2 - s.1) (Timeline.iter T)).
  { apply Forall_forall. intros s Hs. apply HT. by apply Timeline_iter_elem. }
  assert (Hmem : ∀ s, s ∈ Timeline.iter T ↔ s ∈ T) by apply Timeline_iter_elem.
  destruct (Timeline.iter T) as [|first rest] eqn:Hiter.
  - exists []. split; [done|].
    assert (HT0 : ∀ s, s ∉ T) by (intros s Hs; apply Hmem in Hs; by apply elem_of_nil in Hs).
    split; [done|]. split; [constructor|]. split; [constructor|].
    split; [intros s Hs; by apply HT0 in Hs|].
    split; [intros s1 s2 Hs1; by apply HT0 in Hs1|].
    split; [intros o Ho; by apply elem_of_nil in Ho|].
    intros e b _ _ _ o Ho; by apply elem_of_nil in Ho.
  - pose proof Hne as Hne0. apply Forall_cons in Hne0 as [Hfirst _].
    assert (Hfrom : Forall (λ t : Segment.t, first.1 ≤ t.1) (first :: rest)).
    { apply StronglySorted_inv in Hsorted as [_ ?]. by constructor. }
    destruct (support_loop_total collar (first :: rest) first Hfirst Hne)
      as [out Hrun].
    exists out. split; [done|].
    destruct (support_loop_shape collar _ _ _ Hfirst Hne Hfrom Hsorted Hrun)
      as (_ & Hout_ne & _ & Hsep).
    split; [done|]. split; [done|]. split; [done|]. split; [|split; [|split]].
    + intros s Hs.
      apply (support_loop_cover collar (first :: rest) first out s); try done.
      right. by apply Hmem.
    + intros s1 s2 Hs1 Hs2 Hgap.
      destruct (decide (s1 = s2)) as [->|Hneq].
      { destruct (support_loop_cover collar _ _ _ s2 Hfirst Hne Hfrom Hsorted Hrun)
          as (o & Ho & Hspan); [right; by apply Hmem|]. by exists o. }
      apply Hmem in Hs1, Hs2.
      apply list_elem_of_split in Hs1 as (l1 & l2 & Hsplit).
      rewrite Hsplit in Hs2, Hne, Hfrom, Hsorted, Hrun.
      apply elem_of_app in Hs2 as [Hs2|Hs2].
      * apply list_elem_of_split in Hs2 as (k1 & k2 & ->).
        rewrite <-app_assoc in Hne, Hfrom, Hsorted, Hrun. simpl in Hne, Hfrom, Hsorted, Hrun.
        destruct (support_loop_pair collar k1 first out s2 (k2 ++ s1 :: l2) s1)
          as (o & Ho & Hsp2 & Hsp1); try done.
        { apply elem_of_app. right. by left. }
        { seg_unfold. lia. }
        by exists o.
      * apply elem_of_cons in Hs2 as [->|Hs2]; [done|].
        destruct (support_loop_pair collar l1 first out s1 l2 s2)
          as (o & Ho & Hsp1 & Hsp2); try done.
        { seg_unfold. lia. }
        by exists o.
    + intros o Ho.
      destruct (support_loop_bounds collar _ _ _ o Hfirst Hne Hrun Ho)
        as [(s1 & Hs1 & E1) (s2 & Hs2 & E2)].
      split; [exists s1|exists s2]; (split; [|done]); apply Hmem.
      * apply elem_of_cons in Hs1 as [->|Hs1]; [by left|done].
      * apply elem_of_cons in Hs2 as [->|Hs2]; [by left|done].
    + intros e b Hcollar Hprec Hall.
      apply Forall_forall.
      apply (support_loop_pause collar e b (first :: rest) first out); try done.
      * apply Hall, Hmem. by left.
      * apply Forall_forall. intros t Ht. by apply Hall, Hmem.
Qed.

(** ** Track names *)

Lemma ascii_uppercase_value d :
  (d < 26)%nat → (nat_of_ascii (ascii_uppercase d) - 64 = d + 1)%nat.
Proof.
  intros Hd. unfold ascii_uppercase. rewrite nat_ascii_embedding by lia. lia.
Qed.

Lemma string_generator_aux_value fuel : ∀ n acc,
  (n < fuel)%nat →
  name_value 0 (string_generator_aux fuel n acc) = name_value (n + 1) acc.
Proof.
  induction fuel as [|fuel IH]; intros n acc Hn; [lia|].
  cbn [string_generator_aux].
  pose proof (Nat.mod_upper_bound n 26 ltac:(lia)) as Hmod.
  pose proof (ascii_uppercase_value (n mod 26) Hmod) as Hd.
  pose proof (Nat.div_mod_eq n 26) as Hdm.
  destruct (n <? 26)%nat eqn:Hlt.
  - apply Nat.ltb_lt in Hlt. cbn [name_value]. rewrite Hd.
    rewrite Nat.mod_small by done. f_equal.
  - apply Nat.ltb_ge in Hlt.
    rewrite IH by lia. cbn [name_value]. rewrite Hd. f_equal. lia.
Qed.

(** The generator never yields a name twice. *)
Lemma string_generator_inj n m :
  string_generator n = string_generator m → n = m.
Proof.
  intros H. apply (f_equal (name_value 0)) in H. unfold string_generator in H.
  rewrite !string_generator_aux_value in H by lia. cbn [name_value] in H. lia.
Qed.

(** ** Annotations *)

Lemma label_timeline_elem (a : Annotation.t) label (s : Segment.t) :
  s ∈ Annotation.label_timeline a label ↔
  1 < s.2 - s.1 ∧ ∃ track, Annotation.tracks a !! (s, track) = Some label.
Proof.
  unfold Annotation.label_timeline, Annotation.itertracks.
  rewrite Timeline_new_elem. split.
  - intros [Hin Hne]. split; [done|].
    apply list_elem_of_fmap in Hin as ([s' track] & -> & Hin).
    apply list_elem_of_fmap in Hin as ([[s'' track'] label'] & [= <- <-] & Hin).
    apply list_elem_of_filter in Hin as [Hl Hin]. simpl in Hl. subst label'.
    apply elem_of_map_to_list in Hin. by exists track.
  - intros [Hne [track Hlook]]. split; [|done].
    apply list_elem_of_fmap. exists (s, track). split; [done|].
    apply list_elem_of_fmap. exists (s, track, label). split; [done|].
    apply list_elem_of_filter. split; [done|]. by apply elem_of_map_to_list.
Qed.

Lemma labels_elem (a : Annotation.t) label :
  label ∈ Annotation.labels a ↔ ∃ key, Annotation.tracks a !! key = Some label.
Proof.
  unfold Annotation.labels, Annotation.itertracks.
  rewrite merge_sort_Permutation, elem_of_elements, elem_of_list_to_set.
  rewrite list_elem_of_fmap. split.
  - intros ([key l] & -> & Hin). apply elem_of_map_to_list in Hin. by exists key.
  - intros [key Hk]. exists (key, label). split; [done|]. by apply elem_of_map_to_list.
Qed.

Lemma Timeline_new_id collar (out : list Segment.t) :
  Forall (λ o : Segment.t, 1 < o.2 - o.1) out →
  StronglySorted (sep collar) out →
  Timeline.support (Timeline.new out) 0 = Ok (Timeline.new out).
Proof.
  intros Hne Hsep. unfold Timeline.support, Timeline.support_iter.
  rewrite (Timeline_iter_new collar) by done.
  destruct out as [|h rest]; [done|].
  pose proof Hne as Hne0. apply Forall_cons in Hne0 as [Hh Hrest].
  rewrite support_loop_cons by done.
  destruct (decide _) as [_|Hm]; [|exfalso; apply Hm; seg_unfold; lia].
  assert (hull h h = h) as ->.
  { destruct h. unfold hull. simpl. by rewrite Z.min_id, Z.max_id. }
  by rewrite (support_loop_separated collar).
Qed.

(** One label's round of [support] yields the support of the label's
    timeline. *)
Lemma support_segments_spec (a : Annotation.t) collar label :
  ∃ out, Annotation.support_segments a collar label = Ok out
         ∧ is_support collar (Annotation.label_timeline a label) out.
Proof.
  destruct (support_iter_spec (Annotation.label_timeline a label) collar)
    as (out & Hrun & Hsup).
  { intros s Hs. by apply label_timeline_elem in Hs as [? _]. }
  exists out. split; [|done].
  destruct Hsup as (_ & Hne & Hsep & _).
  unfold Annotation.support_segments, Timeline.support at 2.
  rewrite Hrun. simpl.
  rewrite (Timeline_new_id collar) by done. simpl.
  by rewrite (Timeline_iter_new collar).
Qed.

Lemma setitem_nonempty (a : Annotation.t) (key : Segment.t * string) label :
  1 < key.1.2 - key.1.1 →
  Annotation.setitem a key label
  = Annotation.mk (Annotation.uri a) (Annotation.modality a)
                  (<[key := label]> (Annotation.tracks a)).
Proof.
  intros Hne. unfold Annotation.setitem.
  apply Segment_bool_spec in Hne. by destruct (Segment.bool key.1).
Qed.

Lemma add_tracks_spec label (segs : list Segment.t) : ∀ n sup,
  Forall (λ s : Segment.t, 1 < s.2 - s.1) segs →
  (∀ (s : Segment.t) track lbl, Annotation.tracks sup !! (s, track) = Some lbl →
     ∃ i, (i < n)%nat ∧ track = string_generator i) →
  let st' := Annotation.add_tracks label (n, sup) segs in
  (∀ (s : Segment.t) track lbl, Annotation.tracks st'.2 !! (s, track) = Some lbl →
     ∃ i, (i < st'.1)%nat ∧ track = string_generator i)
  ∧ (∀ key lbl, Annotation.tracks sup !! key = Some lbl →
       Annotation.tracks st'.2 !! key = Some lbl)
  ∧ (∀ key lbl, Annotation.tracks st'.2 !! key = Some lbl →
       Annotation.tracks sup !! key = Some lbl ∨ (lbl = label ∧ key.1 ∈ segs))
  ∧ (∀ s, s ∈ segs → ∃ track, Annotation.tracks st'.2 !! (s, track) = Some label)
  ∧ Annotation.uri st'.2 = Annotation.uri sup
  ∧ Annotation.modality st'.2 = Annotation.modality sup.
Proof.
  induction segs as [|s0 segs IH]; intros n sup Hne Hnames; simpl.
  - repeat split; try done.
    + by left.
    + intros s Hs. by apply elem_of_nil in Hs.
  - apply Forall_cons in Hne as [Hs0 Hne].
    rewrite setitem_nonempty by done.
    set (sup1 := Annotation.mk _ _ _).
    assert (Hnames1 : ∀ (s : Segment.t) track lbl,
      Annotation.tracks sup1 !! (s, track) = Some lbl →
      ∃ i, (i < S n)%nat ∧ track = string_generator i).
    { intros s track lbl. unfold sup1. simpl.
      destruct (decide ((s0, string_generator n) = (s, track))) as [[= <- <-]|Hk].
      - intros _. exists n. split; [lia|done].
      - rewrite lookup_insert_ne by done. intros H.
        destruct (Hnames _ _ _ H) as (i & Hi & ->). exists i. split; [lia|done]. }
    destruct (IH (S n) sup1 Hne Hnames1) as (H1 & H2 & H3 & H4 & H5 & H6).
    split; [exact H1|]. split; [|split; [|split; [|split]]].
    + intros [s track] lbl Hk. apply H2. unfold sup1. simpl.
      rewrite lookup_insert_ne; [done|].
      intros [= <- <-]. destruct (Hnames _ _ _ Hk) as (i & Hi & Heq).
      apply string_generator_inj in Heq. lia.
    + intros key lbl Hk. destruct (H3 _ _ Hk) as [Hk1|[-> Hin]].
      * unfold sup1 in Hk1. simpl in Hk1.
        destruct (decide ((s0, string_generator n) = key)) as [<-|Hne1].
        -- rewrite lookup_insert_eq in Hk1. injection Hk1 as <-.
           right. split; [done|]. by left.
        -- rewrite lookup_insert_ne in Hk1 by done. by left.
      * right. split; [done|]. by right.
    + intros s Hs. apply elem_of_cons in Hs as [->|Hs]; [|by apply H4].
      exists (string_generator n). apply H2. unfold sup1. simpl.
      by rewrite lookup_insert_eq.
    + by rewrite H5.
    + by rewrite H6.
Qed.

Lemma support_labels_spec (a : Annotation.t) collar labels : ∀ st done,
  support_inv a collar done st →
  ∃ st', Annotation.support_labels a collar st labels = Ok st'
         ∧ support_inv a collar (done ++ labels) st'
         ∧ Annotation.uri st'.2 = Annotation.uri st.2
         ∧ Annotation.modality st'.2 = Annotation.modality st.2.
Proof.
  induction labels as [|label labels IH]; intros [n sup] done Hinv.
  - exists (n, sup). by rewrite app_nil_r.
  - simpl.
    destruct (support_segments_spec a collar label) as (out & Hout & Hsup).
    rewrite Hout. simpl.
    destruct Hinv as [Hinv1 Hinv2]. simpl in Hinv1, Hinv2.
    destruct (add_tracks_spec label out n sup) as (H1 & H2 & H3 & H4 & H5 & H6).
    { by destruct Hsup as (_ & ? & _). }
    { intros s track lbl Hk. by destruct (Hinv1 _ _ _ Hk) as [? _]. }
    destruct (IH (Annotation.add_tracks label (n, sup) out) (done ++ [label]))
      as (st' & Hrun & Hinv' & Huri & Hmod).
    { split.
      - intros s track lbl Hk. split; [by eapply H1|].
        destruct (H3 _ _ Hk) as [Hk0|[-> Hin]].
        + destruct (Hinv1 _ _ _ Hk0) as (_ & Hd & Hout').
          split; [|done]. apply elem_of_app. by left.
        + split; [apply elem_of_app; right; by left|]. by exists out.
      - intros lbl out' s Hd Hout' Hs.
        apply elem_of_app in Hd as [Hd|Hd].
        + destruct (Hinv2 _ _ _ Hd Hout' Hs) as [track Hk].
          exists track. by apply H2.
        + apply list_elem_of_singleton in Hd as ->.
          rewrite Hout in Hout'. injection Hout' as <-. by apply H4. }
    exists st'. rewrite <-app_assoc in Hinv'. simpl in Hinv'.
    split; [done|]. split; [done|]. split; congruence.
Qed.

(** [support] returns an annotation that has, for every label, the
    segments of the support of that label's timeline. *)
Lemma Annotation_support_spec (a : Annotation.t) collar :
  ∃ a', Annotation.support a collar = Ok a'
        ∧ Annotation.uri a' = Annotation.uri a
        ∧ Annotation.modality a' = Annotation.modality a
        ∧ ∀ label, ∃ out,
            is_support collar (Annotation.label_timeline a label) out
            ∧ ∀ s, s ∈ Annotation.label_timeline a' label ↔ s ∈ out.
Proof.
  destruct (support_labels_spec a collar (Annotation.labels a)
              (0%nat, Annotation.empty a) [])
    as (st' & Hrun & [Hinv1 Hinv2] & Huri & Hmod).
  { split; [|intros ? ? ? Hd; by apply elem_of_nil in Hd].
    intros s track lbl Hk. simpl in Hk. by rewrite lookup_empty in Hk. }
  exists st'.2. unfold Annotation.support. rewrite Hrun. simpl in *.
  split; [done|]. split; [done|]. split; [done|].
  intros label.
  destruct (support_segments_spec a collar label) as (out & Hout & Hsup).
  exists out. split; [done|]. intros s. rewrite label_timeline_elem. split.
  - intros [_ [track Hk]].
    destruct (Hinv1 _ _ _ Hk) as (_ & _ & out' & Hout' & Hs). congruence.
  - intros Hs. destruct Hsup as (_ & Hne & _ & _ & _ & Hbounds & _).
    split; [rewrite Forall_forall in Hne; by apply Hne|].
    eapply Hinv2; [|done..].
    destruct (Hbounds _ Hs) as [(s' & Hs' & _) _].
    apply label_timeline_elem in Hs' as [_ [track Hk]].
    apply labels_elem. by eexists.
Qed.

(** [update] keeps the receiver's identity and overwrites its tracks
    with the other annotation's tracks on non-empty segments. *)
Lemma foldl_setitem_spec (L : list (Segment.t * string * string)) : ∀ a,
  NoDup L.*1 →
  let r := foldl (λ result '(key, label), Annotation.setitem result key label) a L in
  Annotation.uri r = Annotation.uri a
  ∧ Annotation.modality r = Annotation.modality a
  ∧ ∀ key, Annotation.tracks r !! key =
      match (list_to_map L : gmap (Segment.t * string) string) !! key with
      | Some label =>
          if Segment.bool key.1 then Some label else Annotation.tracks a !! key
      | None => Annotation.tracks a !! key
      end.
Proof.
  induction L as [|[k0 l0] L IH]; intros a Hnd; simpl.
  - done.
  - apply NoDup_cons in Hnd as [Hk0 Hnd].
    destruct (IH (Annotation.setitem a k0 l0) Hnd) as (Huri & Hmod & Hlook).
    assert (Hset : Annotation.uri (Annotation.setitem a k0 l0) = Annotation.uri a
                   ∧ Annotation.modality (Annotation.setitem a k0 l0)
                     = Annotation.modality a).
    { unfold Annotation.setitem. by destruct (Segment.bool k0.1). }
    destruct Hset as [Hset1 Hset2].
    split; [congruence|]. split; [congruence|].
    intros key. rewrite Hlook.
    destruct (decide (k0 = key)) as [<-|Hne].
    + rewrite lookup_insert_eq.
      rewrite (not_elem_of_list_to_map_1 L k0) by done.
      unfold Annotation.setitem. destruct (Segment.bool k0.1); simpl; [|done].
      by rewrite lookup_insert_eq.
    + rewrite lookup_insert_ne by done.
      assert (Annotation.tracks (Annotation.setitem a k0 l0) !! key
              = Annotation.tracks a !! key) as ->; [|done].
      unfold Annotation.setitem. destruct (Segment.bool k0.1); simpl; [|done].
      by rewrite lookup_insert_ne.
Qed.

Lemma update_spec (a other : Annotation.t) :
  Annotation.uri (Annotation.update a other) = Annotation.uri a
  ∧ Annotation.modality (Annotation.update a other) = Annotation.modality a
  ∧ ∀ key, Annotation.tracks (Annotation.update a other) !! key =
      match Annotation.tracks other !! key with
      | Some label =>
          if Segment.bool key.1 then Some label else Annotation.tracks a !! key
      | None => Annotation.tracks a !! key
      end.
Proof.
  unfold Annotation.update, Annotation.itertracks.
  pose proof (foldl_setitem_spec (map_to_list (Annotation.tracks other)) a
                (NoDup_fst_map_to_list _)) as H.
  by rewrite list_to_map_to_list in H.
Qed.

(** Updating the empty annotation with a well-formed one copies its
    tracks. *)
Lemma update_new_wf uri (a : Annotation.t) :
  Annotation_wf a →
  Annotation.tracks (Annotation.update (Annotation.new uri) a) = Annotation.tracks a.
Proof.
  intros Hwf. apply map_eq. intros key.
  destruct (update_spec (Annotation.new uri) a) as (_ & _ & ->). simpl.
  destruct (Annotation.tracks a !! key) as [label|] eqn:Hk; [|by rewrite lookup_empty].
  apply (map_Forall_lookup_1 _ _ _ _ Hwf) in Hk. by destruct (Segment.bool key.1).
Qed.

(** The result of [support] depends on the tracks only. *)
Lemma support_segments_tracks (a b : Annotation.t) collar label :
  Annotation.tracks a = Annotation.tracks b →
  Annotation.support_segments a collar label = Annotation.support_segments b collar label.
Proof.
  intros H. unfold Annotation.support_segments, Annotation.label_timeline,
    Annotation.itertracks. by rewrite H.
Qed.

Lemma add_tracks_tracks label (segs : list Segment.t) : ∀ n (s1 s2 : Annotation.t),
  Annotation.tracks s1 = Annotation.tracks s2 →
  (Annotation.add_tracks label (n, s1) segs).1
  = (Annotation.add_tracks label (n, s2) segs).1
  ∧ Annotation.tracks (Annotation.add_tracks label (n, s1) segs).2
    = Annotation.tracks (Annotation.add_tracks label (n, s2) segs).2.
Proof.
  induction segs as [|s segs IH]; intros n s1 s2 H; simpl; [done|].
  apply IH. unfold Annotation.setitem. simpl.
  destruct (Segment.bool s); simpl; [by rewrite H|done].
Qed.

Lemma support_labels_tracks (a b : Annotation.t) collar labels :
  Annotation.tracks a = Annotation.tracks b →
  ∀ n (s1 s2 : Annotation.t) st1,
  Annotation.tracks s1 = Annotation.tracks s2 →
  Annotation.support_labels a collar (n, s1) labels = Ok st1 →
  ∃ st2, Annotation.support_labels b collar (n, s2) labels = Ok st2
         ∧ Annotation.tracks st1.2 = Annotation.tracks st2.2.
Proof.
  intros Hab. induction labels as [|label labels IH]; intros n s1 s2 st1 H Hrun; simpl in *.
  - injection Hrun as <-. by eexists.
  - rewrite <-(support_segments_tracks a b) by done.
    destruct (Annotation.support_segments a collar label) as [segs|]; [|done].
    simpl in *.
    destruct (add_tracks_tracks label segs n s1 s2 H) as [H1 H2].
    destruct (Annotation.add_tracks label (n, s1) segs) as [n1 t1].
    destruct (Annotation.add_tracks label (n, s2) segs) as [n2 t2].
    simpl in *. subst n2. by eapply IH.
Qed.

Lemma support_tracks (a b : Annotation.t) collar a' :
  Annotation.tracks a = Annotation.tracks b →
  Annotation.support a collar = Ok a' →
  ∃ b', Annotation.support b collar = Ok b' ∧ Annotation.eq a' b'.
Proof.
  intros Hab Hrun. unfold Annotation.support in *.
  destruct (Annotation.support_labels a collar _ _) as [st1|] eqn:H1; [|done].
  injection Hrun as <-.
  assert (Annotation.labels a = Annotation.labels b) as <-.
  { unfold Annotation.labels, Annotation.itertracks. by rewrite Hab. }
  destruct (support_labels_tracks a b collar _ Hab _ (Annotation.empty a)
              (Annotation.empty b) _ eq_refl H1)
    as (st2 & -> & Heq).
  by exists st2.2.
Qed.

(** ** The loop of [concat] *)

Lemma concat_loop_spec chunks : ∀ annotation data,
  utils.concat_loop annotation data chunks
  = (foldl (λ acc c, Annotation.update acc c.1) annotation chunks,
     data ++ ((λ c, SlidingWindowFeature.data c.2) <$> chunks)).
Proof.
  unfold utils.concat_loop.
  induction chunks as [|[ann wav] chunks IH]; intros annotation data; simpl.
  - by rewrite app_nil_r.
  - rewrite IH. by rewrite <-app_assoc.
Qed.

Lemma np_concatenate_ok (first : np.ndarray) (rest : list np.ndarray) :
  forallb (λ a, (np.ncols a =? np.ncols first)%nat) (first :: rest) = true →
  np.concatenate (first :: rest)
  = Ok (np.mk (np.ncols first) (List.concat (np.rows <$> first :: rest))).
Proof. intros H. unfold np.concatenate. by rewrite H. Qed.

Lemma length_concat_rows (arrays : list np.ndarray) :
  length (List.concat (np.rows <$> arrays)) = sum_list (np.shape0 <$> arrays).
Proof.
  induction arrays as [|x l IH]; [reflexivity|].
  rewrite !fmap_cons. simpl. rewrite length_app, IH. reflexivity.
Qed.

Lemma np_concatenate_shape (arrays : list np.ndarray) r :
  np.concatenate arrays = Ok r →
  np.rows r = List.concat (np.rows <$> arrays)
  ∧ np.shape0 r = sum_list (np.shape0 <$> arrays).
Proof.
  unfold np.concatenate. destruct arrays as [|f rest]; [done|].
  destruct (forallb _ _); [|done]. intros [= <-]. split; [reflexivity|].
  apply (length_concat_rows (f :: rest)).
Qed.

(** ** Consequences of [is_support] *)

Lemma elem_of_pair (s s1 s2 : Segment.t) :
  s ∈ ({[s1; s2]} : Timeline.t) ↔ s = s1 ∨ s = s2.
Proof. set_solver. Qed.

Lemma separated_cases (collar : Z) (out : list Segment.t) (o1 o2 : Segment.t) :
  StronglySorted (sep collar) out → o1 ∈ out → o2 ∈ out →
  o1 = o2 ∨ sep collar o1 o2 ∨ sep collar o2 o1.
Proof.
  induction 1 as [|x l Hl IH Hx]; intros H1 H2; [by apply elem_of_nil in H1|].
  rewrite Forall_forall in Hx.
  apply elem_of_cons in H1 as [->|H1]; apply elem_of_cons in H2 as [->|H2]; auto.
Qed.

(** Distinct support segments are at least [collar] apart, and further
    apart than the precision. *)
Lemma is_support_apart (collar : Z) (T : Timeline.t) (out : list Segment.t) (o1 o2 : Segment.t) :
  is_support collar T out → o1 ∈ out → o2 ∈ out → o1 ≠ o2 →
  collar ≤ gap o1 o2 ∧ 1 < gap o1 o2.
Proof.
  intros (_ & Hne & Hsep & _) H1 H2 Hneq.
  rewrite Forall_forall in Hne.
  pose proof (Hne _ H1). pose proof (Hne _ H2).
  destruct (separated_cases _ _ _ _ Hsep H1 H2) as [?|[Hs|Hs]]; [done|..];
    unfold sep in Hs; seg_unfold; lia.
Qed.

(** A support segment that spans the whole timeline is the only one. *)
Lemma is_support_single (collar : Z) (T : Timeline.t) (out : list Segment.t) (o : Segment.t) :
  is_support collar T out → o ∈ out → (∀ s, s ∈ T → spans o s) →
  ∀ o', o' ∈ out → o' = o.
Proof.
  intros Hsup Ho Hall o' Ho'.
  pose proof Hsup as (_ & Hne & Hsep & _ & _ & Hbounds & _).
  destruct (Hbounds _ Ho') as [(s1 & Hs1 & E1) (s2 & Hs2 & E2)].
  rewrite Forall_forall in Hne.
  pose proof (Hne _ Ho). pose proof (Hne _ Ho').
  pose proof (Hall _ Hs1). pose proof (Hall _ Hs2).
  destruct (separated_cases _ _ _ _ Hsep Ho Ho') as [?|[Hs|Hs]]; [done|..];
    unfold sep in Hs; seg_unfold; lia.
Qed.

(** The support of two segments whose gap is shorter than [collar], or
    within the precision: one segment from the smaller start to the
    larger end. *)
Lemma is_support_two_near (collar : Z) (T : Timeline.t) (out : list Segment.t) (s1 s2 : Segment.t) :
  is_support collar T out → T = {[s1; s2]} →
  gap s1 s2 < collar ∨ gap s1 s2 ≤ 1 →
  ∀ o, o ∈ out ↔ o = (Z.min s1.1 s2.1, Z.max s1.2 s2.2).
Proof.
  intros Hsup -> Hgap.
  pose proof Hsup as (_ & Hne & Hsep & _ & Hpair & Hbounds & _).
  destruct (Hpair s1 s2) as (o & Ho & Hsp1 & Hsp2); [apply elem_of_pair; auto..|done|].
  assert (Heq : o = (Z.min s1.1 s2.1, Z.max s1.2 s2.2)).
  { destruct (Hbounds _ Ho) as [(t1 & Ht1 & E1) (t2 & Ht2 & E2)].
    destruct o as [o1 o2]. seg_unfold. f_equal.
    - assert (t1 = s1 ∨ t1 = s2) as [->| ->] by (by apply elem_of_pair); lia.
    - assert (t2 = s1 ∨ t2 = s2) as [->| ->] by (by apply elem_of_pair); lia. }
  intros o'. split.
  - intros Ho'. rewrite <-Heq.
    apply (is_support_single collar _ out o Hsup Ho); [|done].
    intros s Hs. assert (s = s1 ∨ s = s2) as [->| ->] by (by apply elem_of_pair); done.
  - intros ->. by rewrite <-Heq.
Qed.

(** The support of two segments whose gap is neither shorter than
    [collar] nor within the precision: the two segments. *)
Lemma is_support_two_apart (collar : Z) (T : Timeline.t) (out : list Segment.t) (s1 s2 : Segment.t) :
  is_support collar T out → T = {[s1; s2]} →
  collar ≤ gap s1 s2 → 1 < gap s1 s2 →
  ∀ o, o ∈ out ↔ o = s1 ∨ o = s2.
Proof.
  intros Hsup -> Hcollar Hprec.
  pose proof Hsup as (HT & Hne & Hsep & Hcover & _ & Hbounds & Hpause).
  rewrite Forall_forall in Hne.
  assert (Hn1 : 1 < s1.2 - s1.1) by (apply HT, elem_of_pair; auto).
  assert (Hn2 : 1 < s2.2 - s2.1) by (apply HT, elem_of_pair; auto).
  assert (Hord : (collar ≤ s2.1 - s1.2 ∧ 1 < s2.1 - s1.2)
                 ∨ (collar ≤ s1.1 - s2.2 ∧ 1 < s1.1 - s2.2)) by (seg_unfold; lia).
  assert (Hp : ∀ o : Segment.t, o ∈ out →
            (o.2 ≤ s1.2 ∨ s2.1 ≤ o.1) ∧ (o.2 ≤ s2.2 ∨ s1.1 ≤ o.1)
            ∨ (o.2 ≤ s2.2 ∨ s1.1 ≤ o.1) ∧ (collar ≤ s1.1 - s2.2 ∧ 1 < s1.1 - s2.2)
            ∨ (o.2 ≤ s1.2 ∨ s2.1 ≤ o.1) ∧ (collar ≤ s2.1 - s1.2 ∧ 1 < s2.1 - s1.2)).
  { intros o Ho. destruct Hord as [[H1 H2]|[H1 H2]].
    - right; right. split; [|done]. apply (Hpause s1.2 s2.1); try done.
      intros t Ht. assert (t = s1 ∨ t = s2) as [->| ->] by (by apply elem_of_pair); lia.
    - right; left. split; [|done]. apply (Hpause s2.2 s1.1); try done.
      intros t Ht. assert (t = s1 ∨ t = s2) as [->| ->] by (by apply elem_of_pair); lia. }
  intros o. split.
  - intros Ho. pose proof (Hne _ Ho). pose proof (Hp _ Ho).
    destruct (Hbounds _ Ho) as [(t1 & Ht1 & E1) (t2 & Ht2 & E2)].
    destruct o as [o1 o2], s1 as [a1 a2], s2 as [b1 b2]. simpl in *.
    assert (t1 = (a1, a2) ∨ t1 = (b1, b2)) as [->| ->] by (by apply elem_of_pair);
    assert (t2 = (a1, a2) ∨ t2 = (b1, b2)) as [->| ->] by (by apply elem_of_pair);
      simpl in *; subst; seg_unfold;
      first [by left | by right | exfalso; lia].
  - intros Hos.
    assert (Hin : o ∈ ({[s1; s2]} : Timeline.t)) by (by apply elem_of_pair).
    destruct (Hcover o Hin) as (o' & Ho' & Hsp).
    pose proof (Hne _ Ho'). pose proof (Hp _ Ho').
    destruct (Hbounds _ Ho') as [(t1 & Ht1 & E1) (t2 & Ht2 & E2)].
    assert (o' = o) as <-; [|done].
    destruct o' as [o1 o2], s1 as [a1 a2], s2 as [b1 b2]. simpl in *.
    assert (t1 = (a1, a2) ∨ t1 = (b1, b2)) as [->| ->] by (by apply elem_of_pair);
    assert (t2 = (a1, a2) ∨ t2 = (b1, b2)) as [->| ->] by (by apply elem_of_pair);
      destruct Hos as [->| ->]; simpl in *; subst; seg_unfold;
      first [done | f_equal; lia | exfalso; lia].
Qed.

(** A pause that no segment of the timeline reaches into, and that is
    neither shorter than [collar] nor within the precision, keeps the
    segments on its two sides in different support segments. *)
Lemma is_support_pause (collar : Z) (T : Timeline.t) (out : list Segment.t) (s1 s2 : Segment.t) :
  is_support collar T out → s1 ∈ T → s2 ∈ T →
  collar ≤ s2.1 - s1.2 → 1 < s2.1 - s1.2 →
  (∀ t : Segment.t, t ∈ T → t.2 ≤ s1.2 ∨ s2.1 ≤ t.1) →
  ∀ o, o ∈ out → ¬ (spans o s1 ∧ spans o s2).
Proof.
  intros Hsup H1 H2 Hcollar Hprec Hall o Ho [Hsp1 Hsp2].
  pose proof Hsup as (HT & _ & _ & _ & _ & _ & Hpause).
  pose proof (Hpause s1.2 s2.1 Hcollar Hprec Hall o Ho).
  pose proof (HT _ H1). pose proof (HT _ H2).
  seg_unfold. lia.
Qed.

(** ** [concat] *)

Lemma bind_Ok {A B : Type} (a : A) (k : A → result B) : (Ok a ≫= k) = k a.
Proof. done. Qed.

Lemma concat_unfold c0 rest collar :
  utils.concat (c0 :: rest) collar =
    (annotation ← Annotation.support (merged_annotation (c0 :: rest)) collar;
     window ← SlidingWindow.init
       (SlidingWindow.duration (SlidingWindowFeature.sliding_window c0.2))
       (SlidingWindow.step (SlidingWindowFeature.sliding_window c0.2))
       (SlidingWindow.start (SlidingWindowFeature.sliding_window c0.2));
     data ← np.concatenate ((λ c, SlidingWindowFeature.data c.2) <$> c0 :: rest);
     Ok (annotation, SlidingWindowFeature.init data window)).
Proof.
  unfold utils.concat, merged_annotation. destruct c0 as [a0 w0].
  by rewrite concat_loop_spec.
Qed.

Lemma SlidingWindow_init_ok duration step start :
  0 < duration → 0 < step →
  SlidingWindow.init duration step start
  = Ok (SlidingWindow.mk duration step start None).
Proof.
  intros Hd Hs. unfold SlidingWindow.init.
  by rewrite !bool_decide_eq_false_2 by lia.
Qed.

Lemma SlidingWindow_init_inv duration step start r :
  SlidingWindow.init duration step start = r →
  (r = Ok (SlidingWindow.mk duration step start None) ∧ 0 < duration ∧ 0 < step)
  ∨ r = Raise ValueError.
Proof.
  unfold SlidingWindow.init. intros <-.
  repeat case_bool_decide; [by right..|]. left. repeat split; lia.
Qed.

Lemma same_channels_data c0 rest :
  same_channels (c0 :: rest) →
  forallb (λ a, (np.ncols a =? np.ncols (SlidingWindowFeature.data c0.2))%nat)
          ((λ c, SlidingWindowFeature.data c.2) <$> c0 :: rest) = true.
Proof.
  unfold same_channels. generalize (c0 :: rest). intros l.
  induction l as [|x l IH]; [done|]. rewrite fmap_cons. simpl.
  intros [-> H]%andb_true_iff. by rewrite IH.
Qed.

(** [concat] returns for a non-empty list of chunks with equal channel
    counts whose first window is valid, and this is its result. *)
Lemma concat_ok c0 rest collar :
  same_channels (c0 :: rest) →
  window_ok (SlidingWindowFeature.sliding_window c0.2) →
  ∃ a, Annotation.support (merged_annotation (c0 :: rest)) collar = Ok a
    ∧ utils.concat (c0 :: rest) collar =
      Ok (a, SlidingWindowFeature.mk
               (np.mk (np.ncols (SlidingWindowFeature.data c0.2))
                  (List.concat ((λ c, np.rows (SlidingWindowFeature.data c.2))
                                  <$> c0 :: rest)))
               (SlidingWindow.mk
                  (SlidingWindow.duration (SlidingWindowFeature.sliding_window c0.2))
                  (SlidingWindow.step (SlidingWindowFeature.sliding_window c0.2))
                  (SlidingWindow.start (SlidingWindowFeature.sliding_window c0.2))
                  None)
               None).
Proof.
  intros Hsame [Hd Hs].
  destruct (Annotation_support_spec (merged_annotation (c0 :: rest)) collar)
    as (a & Ha & _).
  exists a. split; [done|].
  pose proof (same_channels_data _ _ Hsame) as Hcols.
  rewrite concat_unfold, Ha, bind_Ok.
  rewrite SlidingWindow_init_ok, bind_Ok by done.
  rewrite fmap_cons in Hcols |- *.
  rewrite np_concatenate_ok, bind_Ok by done.
  unfold SlidingWindowFeature.init. do 4 f_equal.
  rewrite !fmap_cons. f_equal. by rewrite <-list_fmap_compose.
Qed.

(** What a result of [concat] is made of. *)
Lemma concat_inv chunks collar a w :
  utils.concat chunks collar = Ok (a, w) →
  ∃ c0 rest, chunks = c0 :: rest
    ∧ Annotation.support (merged_annotation chunks) collar = Ok a
    ∧ SlidingWindowFeature.sliding_window w
      = SlidingWindow.mk
          (SlidingWindow.duration (SlidingWindowFeature.sliding_window c0.2))
          (SlidingWindow.step (SlidingWindowFeature.sliding_window c0.2))
          (SlidingWindow.start (SlidingWindowFeature.sliding_window c0.2)) None
    ∧ np.concatenate ((λ c, SlidingWindowFeature.data c.2) <$> chunks)
      = Ok (SlidingWindowFeature.data w).
Proof.
  destruct chunks as [|c0 rest]; [done|]. rewrite concat_unfold.
  intros Hrun. exists c0, rest. split; [done|].
  destruct (Annotation.support _ _) as [a'|]; [|done]. rewrite bind_Ok in Hrun.
  destruct (SlidingWindow.init _ _ _) as [win|] eqn:Hw; [|done].
  rewrite bind_Ok in Hrun.
  destruct (np.concatenate _) as [d|] eqn:Hd; [|done].
  rewrite bind_Ok in Hrun. injection Hrun as <- <-.
  apply SlidingWindow_init_inv in Hw as [(Hw & _)|Hw]; [|done].
  by injection Hw as <-.
Qed.

(** The exceptions of [concat]: [IndexError] for no chunk, and
    otherwise only the [ValueError] of [SlidingWindow] or of
    [np.concatenate]. *)
Lemma concat_raise chunks collar e :
  utils.concat chunks collar = Raise e →
  (chunks = [] ∧ e = IndexError) ∨ (chunks ≠ [] ∧ e = ValueError).
Proof.
  destruct chunks as [|c0 rest]; [intros [= <-]; by left|].
  rewrite concat_unfold. intros Hrun. right. split; [done|].
  destruct (Annotation_support_spec (merged_annotation (c0 :: rest)) collar)
    as (a & Ha & _).
  rewrite Ha, bind_Ok in Hrun.
  destruct (SlidingWindow.init _ _ _) as [win|] eqn:Hw.
  - rewrite bind_Ok in Hrun. unfold np.concatenate in Hrun.
    rewrite fmap_cons in Hrun.
    destruct (forallb _ _); [done|]. by injection Hrun.
  - apply SlidingWindow_init_inv in Hw as [(Hw & _)|Hw]; [done|].
    injection Hw as ->. by injection Hrun.
Qed.

(** The intervals of a speaker in the result are the support of the
    speaker's intervals in the accumulated annotation. *)
Lemma concat_intervals chunks collar a w speaker :
  utils.concat chunks collar = Ok (a, w) →
  ∃ out, is_support collar (intervals (merged_annotation chunks) speaker) out
         ∧ ∀ s, s ∈ intervals a speaker ↔ s ∈ out.
Proof.
  intros Hrun. apply concat_inv in Hrun as (c0 & rest & -> & Ha & _).
  destruct (Annotation_support_spec (merged_annotation (c0 :: rest)) collar)
    as (a' & Ha' & _ & _ & Hsup).
  rewrite Ha in Ha'. injection Ha' as <-. apply Hsup.
Qed.

(** The accumulated annotation: for every key, the label that the last
    chunk holding the key on a non-empty segment gives it. *)
Lemma merged_annotation_tracks chunks key :
  Annotation.tracks (merged_annotation chunks) !! key
  = foldl (λ label (c : Annotation.t * SlidingWindowFeature.t),
             match Annotation.tracks c.1 !! key with
             | Some l => if Segment.bool key.1 then Some l else label
             | None => label
             end) None chunks.
Proof.
  unfold merged_annotation. destruct chunks as [|[a0 w0] rest]; [done|].
  rewrite concat_loop_spec. cbn [fst].
  assert (H : ∀ l annotation label,
    Annotation.tracks annotation !! key = label →
    Annotation.tracks
      (foldl (λ acc (c : Annotation.t * SlidingWindowFeature.t),
                Annotation.update acc c.1) annotation l) !! key
    = foldl (λ label (c : Annotation.t * SlidingWindowFeature.t),
               match Annotation.tracks c.1 !! key with
               | Some l => if Segment.bool key.1 then Some l else label
               | None => label
               end) label l).
  { induction l as [|c l IH]; intros annotation label Hl; [done|].
    cbn [foldl]. apply IH.
    destruct (update_spec annotation c.1) as (_ & _ & ->). by rewrite Hl. }
  apply H. apply lookup_empty.
Qed.

Lemma concat_same_content c0 rest rest' collar :
  Forall2 same_content rest rest' →
  utils.concat (c0 :: rest) collar = utils.concat (c0 :: rest') collar.
Proof.
  intros Hsame. unfold utils.concat. destruct c0 as [a0 w0].
  assert (Hloop : ∀ annotation data,
    utils.concat_loop annotation data rest = utils.concat_loop annotation data rest').
  { unfold utils.concat_loop.
    induction Hsame as [|[a1 w1] [a2 w2] l l' [Ha Hd] _ IH]; intros annotation data;
      [done|]. simpl in *. subst a2. rewrite Hd. apply IH. }
  unfold utils.concat_loop in *. simpl. by rewrite Hloop.
Qed.

(** ** The claims about [concat] *)

(** C1, as amended. [concat] returns for every non-empty list of chunks
    with equal channel counts and a valid first window. In a result, for
    every speaker: two of the speaker's intervals in the accumulated
    annotation whose gap is shorter than [collar] (or within the segment
    precision) lie within one interval of the result, which for a
    speaker with just these two intervals runs from the smaller start to
    the larger end; two intervals whose gap is at least [collar] (and
    above the precision) stay as they are when they are the speaker's
    only ones, and are in different intervals of the result whenever no
    interval of the speaker reaches into the pause between them; and two
    different intervals of one speaker in the result are at least
    [collar] apart. *)
Theorem C1_support_merges_below_collar chunks collar :
  (∀ c0, head chunks = Some c0 → same_channels chunks →
     window_ok (SlidingWindowFeature.sliding_window c0.2) →
     ∃ a w, utils.concat chunks collar = Ok (a, w))
  ∧ ∀ a w, utils.concat chunks collar = Ok (a, w) →
    ∀ speaker,
      let before := intervals (merged_annotation chunks) speaker in
      let after := intervals a speaker in
      (∀ s1 s2, s1 ∈ before → s2 ∈ before →
         gap s1 s2 < collar ∨ gap s1 s2 ≤ Segment.SEGMENT_PRECISION →
         ∃ o, o ∈ after ∧ spans o s1 ∧ spans o s2)
      ∧ (∀ s1 s2, before = {[s1; s2]} →
         gap s1 s2 < collar ∨ gap s1 s2 ≤ Segment.SEGMENT_PRECISION →
         after = {[ (Z.min (Segment.start s1) (Segment.start s2),
                     Z.max (Segment.end_ s1) (Segment.end_ s2)) ]})
      ∧ (∀ s1 s2, before = {[s1; s2]} →
         collar ≤ gap s1 s2 → Segment.SEGMENT_PRECISION < gap s1 s2 →
         after = {[s1; s2]})
      ∧ (∀ s1 s2, s1 ∈ before → s2 ∈ before →
         collar ≤ Segment.start s2 - Segment.end_ s1 →
         Segment.SEGMENT_PRECISION < Segment.start s2 - Segment.end_ s1 →
         (∀ t, t ∈ before →
            Segment.end_ t ≤ Segment.end_ s1 ∨ Segment.start s2 ≤ Segment.start t) →
         ∀ o, o ∈ after → ¬ (spans o s1 ∧ spans o s2))
      ∧ (∀ o1 o2, o1 ∈ after → o2 ∈ after → o1 ≠ o2 → collar ≤ gap o1 o2).
Proof.
  split.
  { intros c0 Hhead Hsame Hwin.
    destruct chunks as [|c rest]; [done|]. injection Hhead as ->.
    destruct (concat_ok c0 rest collar Hsame Hwin) as (a & _ & Hrun).
    by eexists a, _. }
  intros a w Hrun speaker before after.
  destruct (concat_intervals _ _ _ _ speaker Hrun) as (out & Hsup & Hout).
  fold before in Hsup. fold after in Hout.
  split; [|split; [|split; [|split]]].
  - intros s1 s2 H1 H2 Hgap.
    destruct Hsup as (_ & _ & _ & _ & Hpair & _).
    destruct (Hpair s1 s2 H1 H2 Hgap) as (o & Ho & Hsp).
    exists o. split; [by apply Hout|done].
  - intros s1 s2 HT Hgap. apply set_eq. intros o.
    rewrite Hout, elem_of_singleton.
    by apply (is_support_two_near collar before).
  - intros s1 s2 HT Hcollar Hprec. apply set_eq. intros o.
    rewrite Hout, elem_of_pair.
    by apply (is_support_two_apart collar before).
  - intros s1 s2 H1 H2 Hcollar Hprec Hall o Ho.
    apply (is_support_pause collar before out s1 s2); try done.
    by apply Hout.
  - intros o1 o2 H1 H2 Hneq.
    apply (is_support_apart collar before out); [done| | |done]; by apply Hout.
Qed.

(** The scenario of the specification: with collar 0.05 s the intervals
    [0, 2] and [2.03, 4] of speaker "A" become [0, 4]; with collar 0.01 s
    they remain two. *)
Lemma C1_witness :
  (∃ a w, utils.concat example_chunks 50000 = Ok (a, w)
          ∧ intervals a "A" = {[ (0, 4000000) ]})
  ∧ (∃ a w, utils.concat example_chunks 10000 = Ok (a, w)
          ∧ intervals a "A" = {[ (0, 2000000); (2030000, 4000000) ]}).
Proof.
  split.
  - destruct (C1_support_merges_below_collar example_chunks 50000) as [Hret H].
    destruct (Hret _ eq_refl eq_refl (conj eq_refl eq_refl)) as (a & w & Hrun).
    exists a, w. split; [exact Hrun|].
    destruct (H a w Hrun "A"%string) as (_ & Hnear & _).
    apply (Hnear (0, 2000000) (2030000, 4000000)).
    + vm_compute. reflexivity.
    + left. vm_compute. reflexivity.
  - destruct (C1_support_merges_below_collar example_chunks 10000) as [Hret H].
    destruct (Hret _ eq_refl eq_refl (conj eq_refl eq_refl)) as (a & w & Hrun).
    exists a, w. split; [exact Hrun|].
    destruct (H a w Hrun "A"%string) as (_ & _ & Hapart & _).
    apply (Hapart (0, 2000000) (2030000, 4000000)).
    + vm_compute. reflexivity.
    + vm_compute. discriminate.
    + vm_compute. reflexivity.
Defined.

(** C1 as stated fails where the gap equals [collar]: speaker "A" over
    [0 s, 2 s] and [3 s, 4 s] with collar 1 s has gap 1 s ≤ collar, and
    no interval of the result spans both. *)
Lemma C1_counterexample :
  ∃ a w, utils.concat example_chunks_apart 1000000 = Ok (a, w)
    ∧ (0, 2000000) ∈ intervals (merged_annotation example_chunks_apart) "A"
    ∧ (3000000, 4000000) ∈ intervals (merged_annotation example_chunks_apart) "A"
    ∧ gap (0, 2000000) (3000000, 4000000) ≤ 1000000
    ∧ ¬ ∃ o, o ∈ intervals a "A"
             ∧ spans o (0, 2000000) ∧ spans o (3000000, 4000000).
Proof.
  destruct (concat_ok (example_annotation [((0, 2000000), "A", "A")]%string,
                       example_waveform 2 500000 100000 0)
              [(example_annotation [((3000000, 4000000), "A", "A")]%string,
                example_waveform 3 250000 50000 3000000)]
              1000000 eq_refl (conj eq_refl eq_refl)) as (a & _ & Hrun).
  fold example_chunks_apart in Hrun.
  eexists a, _. split; [exact Hrun|].
  assert (HT : intervals (merged_annotation example_chunks_apart) "A"
               = {[ (0, 2000000); (3000000, 4000000) ]}) by (by vm_compute).
  rewrite HT. split; [apply elem_of_pair; by left|].
  split; [apply elem_of_pair; by right|].
  split; [by vm_compute|].
  intros (o & Ho & Hsp1 & Hsp2).
  destruct (concat_intervals _ _ _ _ "A"%string Hrun) as (out & Hsup & Hout).
  apply Hout in Ho.
  apply (is_support_two_apart 1000000 _ out _ _ Hsup HT) in Ho;
    [|by vm_compute..].
  destruct Ho as [-> | ->]; seg_unfold; lia.
Qed.

(** C2. The waveform that [concat] returns has as its buffer the rows
    of the input buffers one after the other, so its length is the sum
    of their lengths; and [concat] returns for every non-empty list of
    chunks with equal channel counts and a valid first window. *)
Theorem C2_waveform_length chunks collar :
  (∀ c0, head chunks = Some c0 → same_channels chunks →
     window_ok (SlidingWindowFeature.sliding_window c0.2) →
     ∃ a w, utils.concat chunks collar = Ok (a, w))
  ∧ ∀ a w, utils.concat chunks collar = Ok (a, w) →
      np.shape0 (SlidingWindowFeature.data w)
      = sum_list ((λ c, np.shape0 (SlidingWindowFeature.data c.2)) <$> chunks)
      ∧ np.rows (SlidingWindowFeature.data w)
        = List.concat ((λ c, np.rows (SlidingWindowFeature.data c.2)) <$> chunks).
Proof.
  split.
  { intros c0 Hhead Hsame Hwin.
    destruct chunks as [|c rest]; [done|]. injection Hhead as ->.
    destruct (concat_ok c0 rest collar Hsame Hwin) as (a & _ & Hrun).
    by eexists a, _. }
  intros a w Hrun.
  apply concat_inv in Hrun as (c0 & rest & -> & _ & _ & Hcat).
  apply np_concatenate_shape in Hcat as [Hrows Hlen].
  rewrite Hlen, Hrows. by rewrite <-!list_fmap_compose.
Qed.

Lemma C2_witness :
  ∃ a w, utils.concat example_chunks 50000 = Ok (a, w)
    ∧ np.shape0 (SlidingWindowFeature.data w) = 5%nat.
Proof.
  destruct (C2_waveform_length example_chunks 50000) as [Hret H].
  destruct (Hret _ eq_refl eq_refl (conj eq_refl eq_refl)) as (a & w & Hrun).
  exists a, w. split; [exact Hrun|]. exact (proj1 (H a w Hrun)).
Defined.

(** C3, as amended. [concat] raises [IndexError] for an empty list of
    chunks. It does not compare the windows of the chunks: chunks whose
    windows differ in [duration] or [step] are concatenated, and the
    result carries the first chunk's window. The only other exception
    is [ValueError], for a first window that [SlidingWindow] rejects or
    for buffers with different channel counts. *)
Theorem C3_concat_errors collar :
  utils.concat [] collar = Raise IndexError
  ∧ (∀ chunks c0,
       head chunks = Some c0 → same_channels chunks →
       window_ok (SlidingWindowFeature.sliding_window c0.2) →
       windows_differ chunks →
       ∃ a w, utils.concat chunks collar = Ok (a, w)
         ∧ SlidingWindowFeature.sliding_window w
           = SlidingWindow.mk
               (SlidingWindow.duration (SlidingWindowFeature.sliding_window c0.2))
               (SlidingWindow.step (SlidingWindowFeature.sliding_window c0.2))
               (SlidingWindow.start (SlidingWindowFeature.sliding_window c0.2))
               None)
  ∧ (∀ chunks e, utils.concat chunks collar = Raise e →
       (chunks = [] ∧ e = IndexError)
       ∨ (e = ValueError ∧ ∃ c0, head chunks = Some c0
            ∧ ¬ (same_channels chunks
                 ∧ window_ok (SlidingWindowFeature.sliding_window c0.2)))).
Proof.
  split; [done|]. split.
  - intros chunks c0 Hhead Hsame Hwin _.
    destruct chunks as [|c rest]; [done|]. injection Hhead as ->.
    destruct (concat_ok c0 rest collar Hsame Hwin) as (a & _ & Hrun).
    by eexists a, _.
  - intros chunks e Hrun.
    destruct (concat_raise _ _ _ Hrun) as [?|[Hne ->]]; [by left|]. right.
    split; [done|]. destruct chunks as [|c0 rest]; [done|].
    exists c0. split; [done|]. intros [Hsame Hwin].
    destruct (concat_ok c0 rest collar Hsame Hwin) as (a & _ & Hok).
    congruence.
Qed.

Lemma C3_witness :
  ∃ a w, utils.concat example_chunks_apart 50000 = Ok (a, w)
    ∧ SlidingWindowFeature.sliding_window w = SlidingWindow.mk 500000 100000 0 None.
Proof.
  destruct (C3_concat_errors 50000) as (_ & Hdiffer & _).
  exact (Hdiffer example_chunks_apart _ eq_refl eq_refl (conj eq_refl eq_refl) eq_refl).
Defined.

(** C3 as stated fails: the second window of [example_chunks_apart] has
    another [duration] and another [step], and [concat] returns. *)
Lemma C3_counterexample :
  windows_differ example_chunks_apart
  ∧ ¬ ∃ e, utils.concat example_chunks_apart 50000 = Raise e.
Proof.
  split; [reflexivity|]. intros [e He].
  destruct (concat_ok (example_annotation [((0, 2000000), "A", "A")]%string,
                       example_waveform 2 500000 100000 0)
              [(example_annotation [((3000000, 4000000), "A", "A")]%string,
                example_waveform 3 250000 50000 3000000)]
              50000 eq_refl (conj eq_refl eq_refl)) as (a & _ & Hrun).
  fold example_chunks_apart in Hrun. congruence.
Qed.

(** C4. The window of the waveform that [concat] returns has the
    [duration], [step] and [start] of the first chunk's window, and the
    result is the same whatever the windows of the later chunks are;
    and [concat] returns for every non-empty list of chunks with equal
    channel counts and a valid first window. *)
Theorem C4_window_of_first_chunk c0 rest collar :
  (same_channels (c0 :: rest) →
   window_ok (SlidingWindowFeature.sliding_window c0.2) →
   ∃ a w, utils.concat (c0 :: rest) collar = Ok (a, w))
  ∧ ∀ a w, utils.concat (c0 :: rest) collar = Ok (a, w) →
      SlidingWindow.duration (SlidingWindowFeature.sliding_window w)
      = SlidingWindow.duration (SlidingWindowFeature.sliding_window c0.2)
      ∧ SlidingWindow.step (SlidingWindowFeature.sliding_window w)
        = SlidingWindow.step (SlidingWindowFeature.sliding_window c0.2)
      ∧ SlidingWindow.start (SlidingWindowFeature.sliding_window w)
        = SlidingWindow.start (SlidingWindowFeature.sliding_window c0.2)
      ∧ ∀ rest', Forall2 same_content rest rest' →
          utils.concat (c0 :: rest') collar = Ok (a, w).
Proof.
  split.
  { intros Hsame Hwin.
    destruct (concat_ok c0 rest collar Hsame Hwin) as (a & _ & Hrun).
    by eexists a, _. }
  intros a w Hrun. pose proof Hrun as Hrun0.
  apply concat_inv in Hrun as (c & rest0 & [= <- <-] & _ & -> & _).
  repeat split.
  intros rest' Hrest. by rewrite <-(concat_same_content c0 rest rest').
Qed.

Lemma C4_witness :
  ∃ a w, utils.concat example_chunks 50000 = Ok (a, w)
    ∧ SlidingWindow.start (SlidingWindowFeature.sliding_window w) = 0
    ∧ utils.concat
        [(example_annotation [((0, 2000000), "A", "A")]%string,
          example_waveform 2 500000 100000 0);
         (example_annotation [((2030000, 4000000), "A", "A")]%string,
          example_waveform 3 500000 100000 777)] 50000 = Ok (a, w).
Proof.
  destruct (C4_window_of_first_chunk
              (example_annotation [((0, 2000000), "A", "A")]%string,
               example_waveform 2 500000 100000 0)
              [(example_annotation [((2030000, 4000000), "A", "A")]%string,
                example_waveform 3 500000 100000 2000000)]
              50000) as [Hret H].
  destruct (Hret eq_refl (conj eq_refl eq_refl)) as (a & w & Hrun).
  destruct (H a w Hrun) as (_ & _ & Hstart & Hrest).
  exists a, w. split; [exact Hrun|]. split; [exact Hstart|].
  apply Hrest. constructor; [|constructor]. split; reflexivity.
Defined.

(** C6. For one chunk [(a, w)] with a well-formed annotation and a valid
    window, [concat] returns the annotation [a.support(collar)], equal
    in its tracks and its [uri], and a waveform with the buffer of [w]. *)
Theorem C6_single_chunk a w collar :
  Annotation_wf a → window_ok (SlidingWindowFeature.sliding_window w) →
  ∃ a' w' a'', utils.concat [(a, w)] collar = Ok (a', w')
    ∧ Annotation.support a collar = Ok a''
    ∧ Annotation.eq a' a''
    ∧ Annotation.uri a' = Annotation.uri a''
    ∧ SlidingWindowFeature.data w' = SlidingWindowFeature.data w.
Proof.
  intros Hwf Hwin.
  assert (Hsame : same_channels [(a, w)]).
  { unfold same_channels. simpl. by rewrite Nat.eqb_refl. }
  destruct (concat_ok (a, w) [] collar Hsame Hwin) as (a' & Ha' & Hrun).
  assert (Htracks : Annotation.tracks (merged_annotation [(a, w)])
                    = Annotation.tracks a).
  { unfold merged_annotation. rewrite concat_loop_spec. simpl.
    by apply update_new_wf. }
  destruct (support_tracks _ a collar a' Htracks Ha') as (a'' & Ha'' & Heq).
  eexists a', _, a''. split; [exact Hrun|]. split; [done|]. split; [done|].
  split.
  - destruct (Annotation_support_spec (merged_annotation [(a, w)]) collar)
      as (b' & Hb' & Huri' & _).
    destruct (Annotation_support_spec a collar) as (b'' & Hb'' & Huri'' & _).
    assert (b' = a') as -> by congruence. assert (b'' = a'') as -> by congruence.
    rewrite Huri', Huri''. unfold merged_annotation.
    rewrite concat_loop_spec. simpl.
    by destruct (update_spec (Annotation.new (Annotation.uri a)) a) as (-> & _).
  - simpl. rewrite app_nil_r. by destruct (SlidingWindowFeature.data w).
Qed.

Lemma C6_witness :
  ∃ a' w' a'',
    utils.concat [(example_annotation [((0, 2000000), "A", "A")]%string,
                   example_waveform 2 500000 100000 0)] 50000 = Ok (a', w')
    ∧ Annotation.support (example_annotation [((0, 2000000), "A", "A")]%string)
                         50000 = Ok a''
    ∧ Annotation.eq a' a''
    ∧ SlidingWindowFeature.data w' = np.mk 1 [[0%float]; [0%float]].
Proof.
  assert (Hwf : Annotation_wf (example_annotation [((0, 2000000), "A", "A")]%string)).
  { unfold Annotation_wf. refine (bool_decide_unpack _ _). vm_compute. exact I. }
  destruct (C6_single_chunk _ (example_waveform 2 500000 100000 0) 50000
              Hwf (conj eq_refl eq_refl)) as (a' & w' & a'' & H1 & H2 & H3 & _ & H5).
  exists a', w', a''. split; [exact H1|]. split; [exact H2|]. split; [exact H3|].
  exact H5.
Defined.

(** ** The store: what [concat_st] leaves unchanged *)

Lemma M_bind_inv {A B : Type} (m : M A) (k : A → M B) σ σ' r :
  (m ≫= k) σ = (σ', r) →
  (∃ σ1 a, m σ = (σ1, Ok a) ∧ k a σ1 = (σ', r))
  ∨ (∃ e, m σ = (σ', Raise e) ∧ r = Raise e).
Proof.
  unfold mbind, M_bind. destruct (m σ) as [σ1 [a|e]]; intros H.
  - left. by exists σ1, a.
  - right. injection H as <- <-. by exists e.
Qed.

Lemma frame_safe_bind {A B : Type} X (m : M A) (k : A → M B) :
  frame_safe X m → (∀ a, frame_safe X (k a)) → frame_safe X (m ≫= k).
Proof.
  intros Hm Hk σ0 σ σ' r Hsub Hdisj Hrun.
  apply M_bind_inv in Hrun as [(σ1 & a & Hrun1 & Hrun2)|(e & Hrun1 & _)].
  - eapply Hk; [|done|exact Hrun2]. by eapply Hm.
  - by eapply Hm.
Qed.

Lemma frame_safe_ret {A : Type} X (a : A) : frame_safe X (mret a).
Proof. intros σ0 σ σ' r Hsub _ [= <- _]. done. Qed.

Lemma frame_safe_raise {A : Type} X e : frame_safe X (raise e : M A).
Proof. intros σ0 σ σ' r Hsub _ [= <- _]. done. Qed.

Lemma frame_safe_lift {A : Type} X (x : result A) : frame_safe X (lift x).
Proof. intros σ0 σ σ' r Hsub _ [= <- _]. done. Qed.

Lemma frame_safe_read X l : frame_safe X (read l).
Proof.
  intros σ0 σ σ' r Hsub _. unfold read.
  destruct (σ !! l); intros [= <- _]; done.
Qed.

(** The new object's location is not in use, so not in the part kept. *)
Lemma frame_safe_new_object X o : frame_safe X (new_object o).
Proof.
  intros σ0 σ σ' r Hsub _ [= <- _].
  apply insert_subseteq_r; [|done].
  apply not_elem_of_dom. intros Hin.
  apply (is_fresh (dom σ)). by apply (subseteq_dom _ _ Hsub).
Qed.

Lemma frame_safe_write X l o : l ∈ X → frame_safe X (write l o).
Proof.
  intros Hl σ0 σ σ' r Hsub Hdisj [= <- _].
  apply insert_subseteq_r; [|done].
  apply not_elem_of_dom. intros Hin. by apply (Hdisj l).
Qed.

Lemma frame_safe_read_annotation X l : frame_safe X (read_annotation l).
Proof.
  apply frame_safe_bind; [apply frame_safe_read|].
  intros []; first [apply frame_safe_ret | apply frame_safe_raise].
Qed.

Lemma frame_safe_read_array X l : frame_safe X (read_array l).
Proof.
  apply frame_safe_bind; [apply frame_safe_read|].
  intros []; first [apply frame_safe_ret | apply frame_safe_raise].
Qed.

Lemma frame_safe_read_window X l : frame_safe X (read_window l).
Proof.
  apply frame_safe_bind; [apply frame_safe_read|].
  intros []; first [apply frame_safe_ret | apply frame_safe_raise].
Qed.

Lemma frame_safe_read_feature X l : frame_safe X (read_feature l).
Proof.
  apply frame_safe_bind; [apply frame_safe_read|].
  intros []; first [apply frame_safe_ret | apply frame_safe_raise].
Qed.

Lemma frame_safe_read_arrays X ls : frame_safe X (read_arrays ls).
Proof.
  induction ls as [|l ls IH]; [apply frame_safe_ret|].
  apply frame_safe_bind; [apply frame_safe_read_array|]. intros d.
  apply frame_safe_bind; [apply IH|]. intros ds. apply frame_safe_ret.
Qed.

(** [update] changes the accumulating annotation only. *)
Lemma frame_safe_update_st X annotation ann :
  annotation ∈ X → frame_safe X (update_st annotation ann).
Proof.
  intros Hin.
  apply frame_safe_bind; [apply frame_safe_read_annotation|]. intros self.
  apply frame_safe_bind; [apply frame_safe_read_annotation|]. intros other.
  by apply frame_safe_write.
Qed.

Lemma frame_safe_concat_loop_st X annotation chunks : ∀ data,
  annotation ∈ X → frame_safe X (concat_loop_st annotation data chunks).
Proof.
  induction chunks as [|[ann wav] chunks IH]; intros data Hin;
    [apply frame_safe_ret|].
  apply frame_safe_bind; [by apply frame_safe_update_st|]. intros _.
  apply frame_safe_bind; [apply frame_safe_read_feature|]. intros f.
  by apply IH.
Qed.

(** Every object that is in the store before [concat_st] is in it,
    unchanged, afterwards, whether [concat_st] returns or raises. *)
Lemma concat_st_frame chunks collar (σ σ' : store) r :
  concat_st chunks collar σ = (σ', r) → σ ⊆ σ'.
Proof.
  destruct chunks as [|[first_annotation first_waveform] rest];
    [by intros [= <- _]|].
  unfold concat_st. intros Hrun.
  apply M_bind_inv in Hrun as [(σ1 & first & Hrun1 & Hrun)|(e & Hrun1 & _)];
    [|by apply (frame_safe_read_annotation ∅ _ σ σ σ' _ (reflexivity _)
                  ltac:(set_solver) Hrun1)].
  assert (Hσ1 : σ ⊆ σ1).
  { by apply (frame_safe_read_annotation ∅ _ σ σ σ1 _ (reflexivity _)
                ltac:(set_solver) Hrun1). }
  apply M_bind_inv in Hrun as [(σ2 & annotation & Hrun2 & Hrun)|(e & Hrun2 & _)];
    [|done].
  injection Hrun2 as <- <-.
  set (annotation := fresh (dom σ1)) in *.
  assert (Hfresh : annotation ∉ dom σ).
  { intros Hin. apply (is_fresh (dom σ1)). by apply (subseteq_dom _ _ Hσ1). }
  revert Hrun.
  match goal with |- ?m _ = _ → _ =>
    assert (Hsafe : frame_safe {[annotation]} m) end.
  { apply frame_safe_bind;
      [apply frame_safe_concat_loop_st; set_solver|]. intros data.
    apply frame_safe_bind; [apply frame_safe_read_annotation|]. intros merged.
    apply frame_safe_bind; [apply frame_safe_lift|]. intros support.
    apply frame_safe_bind; [apply frame_safe_new_object|]. intros annotation'.
    apply frame_safe_bind; [apply frame_safe_read_feature|]. intros f.
    apply frame_safe_bind; [apply frame_safe_read_window|]. intros sw.
    apply frame_safe_bind; [apply frame_safe_lift|]. intros window.
    apply frame_safe_bind; [apply frame_safe_new_object|]. intros window'.
    apply frame_safe_bind; [apply frame_safe_read_arrays|]. intros arrays.
    apply frame_safe_bind; [apply frame_safe_lift|]. intros array.
    apply frame_safe_bind; [apply frame_safe_new_object|]. intros data'.
    apply frame_safe_bind; [apply frame_safe_new_object|]. intros feature.
    apply frame_safe_ret. }
  intros Hrun. eapply Hsafe; [|set_solver|exact Hrun].
  apply insert_subseteq_r; [by apply not_elem_of_dom|done].
Qed.

Lemma chunk_value_mono (σ σ' : store) c v :
  σ ⊆ σ' → chunk_value σ c = Some v → chunk_value σ' c = Some v.
Proof.
  intros Hsub. unfold chunk_value.
  destruct (σ !! c.1) as [[a| | |]|] eqn:H1; try done.
  destruct (σ !! c.2) as [[| | |ld lw labels]|] eqn:H2; try done.
  destruct (σ !! ld) as [[|d| |]|] eqn:H3; try done.
  destruct (σ !! lw) as [[| |w|]|] eqn:H4; try done.
  rewrite (lookup_weaken _ _ _ _ H1 Hsub), (lookup_weaken _ _ _ _ H2 Hsub).
  by rewrite (lookup_weaken _ _ _ _ H3 Hsub), (lookup_weaken _ _ _ _ H4 Hsub).
Qed.

(** C5. After a call of [concat], every object that was in the store
    is there unchanged: each input chunk denotes the same annotation and
    the same waveform (buffer, window and labels) as before the call. *)
Theorem C5_concat_leaves_inputs_unchanged chunks collar (σ σ' : store) r :
  concat_st chunks collar σ = (σ', r) →
  (∀ l o, σ !! l = Some o → σ' !! l = Some o)
  ∧ (∀ c v, chunk_value σ c = Some v → chunk_value σ' c = Some v).
Proof.
  intros Hrun. pose proof (concat_st_frame _ _ _ _ _ Hrun) as Hsub.
  split.
  - intros l o Hl. by eapply lookup_weaken.
  - intros c v. by apply chunk_value_mono.
Qed.

Lemma C5_witness :
  chunk_value (concat_st [(1, 3); (2, 4)]%positive 50000 example_store).1 (1, 3)%positive
  = chunk_value example_store (1, 3)%positive
  ∧ chunk_value (concat_st [(1, 3); (2, 4)]%positive 50000 example_store).1 (2, 4)%positive
    = chunk_value example_store (2, 4)%positive.
Proof.
  destruct (C5_concat_leaves_inputs_unchanged
              [(1, 3); (2, 4)]%positive 50000 example_store _ _
              (surjective_pairing _)) as [_ H].
  split.
  - destruct (chunk_value example_store (1, 3)%positive) as [v|] eqn:E.
    + exact (H _ v E).
    + vm_compute in E. discriminate E.
  - destruct (chunk_value example_store (2, 4)%positive) as [v|] eqn:E.
    + exact (H _ v E).
    + vm_compute in E. discriminate E.
Defined.

(** ** The store: [concat_st] computes what [concat] computes *)

Lemma bind_Raise {A B : Type} e (k : A → result B) : (Raise e ≫= k) = Raise e.
Proof. done. Qed.

Lemma M_bind_ok {A B : Type} (m : M A) (k : A → M B) σ σ1 a :
  m σ = (σ1, Ok a) → (m ≫= k) σ = k a σ1.
Proof. intros H. unfold mbind, M_bind. by rewrite H. Qed.

Lemma M_bind_raise {A B : Type} (m : M A) (k : A → M B) σ σ1 e :
  m σ = (σ1, Raise e) → (m ≫= k) σ = (σ1, Raise e).
Proof. intros H. unfold mbind, M_bind. by rewrite H. Qed.

Lemma read_annotation_ok (σ : store) l a :
  σ !! l = Some (OAnnotation a) → read_annotation l σ = (σ, Ok a).
Proof. intros H. unfold read_annotation, mbind, M_bind, read. by rewrite H. Qed.

Lemma read_array_ok (σ : store) l d :
  σ !! l = Some (OArray d) → read_array l σ = (σ, Ok d).
Proof. intros H. unfold read_array, mbind, M_bind, read. by rewrite H. Qed.

Lemma read_window_ok (σ : store) l w :
  σ !! l = Some (OWindow w) → read_window l σ = (σ, Ok w).
Proof. intros H. unfold read_window, mbind, M_bind, read. by rewrite H. Qed.

Lemma read_feature_ok (σ : store) l ld lw labels :
  σ !! l = Some (OFeature ld lw labels) → read_feature l σ = (σ, Ok (ld, lw)).
Proof. intros H. unfold read_feature, mbind, M_bind, read. by rewrite H. Qed.

Lemma chunk_value_inv (σ : store) c a w :
  chunk_value σ c = Some (a, w) →
  ∃ ld lw, σ !! c.1 = Some (OAnnotation a)
    ∧ σ !! c.2 = Some (OFeature ld lw (SlidingWindowFeature.labels w))
    ∧ σ !! ld = Some (OArray (SlidingWindowFeature.data w))
    ∧ σ !! lw = Some (OWindow (SlidingWindowFeature.sliding_window w)).
Proof.
  unfold chunk_value.
  destruct (σ !! c.1) as [[a'| | |]|] eqn:H1; try done.
  destruct (σ !! c.2) as [[| | |ld lw labels]|] eqn:H2; try done.
  destruct (σ !! ld) as [[|d| |]|] eqn:H3; try done.
  destruct (σ !! lw) as [[| |w'|]|] eqn:H4; try done.
  intros [= <- <-]. by exists ld, lw.
Qed.

Lemma read_arrays_ok (σ : store) (ls : list loc) (ds : list np.ndarray) :
  Forall2 (λ l d, σ !! l = Some (OArray d)) ls ds →
  read_arrays ls σ = (σ, Ok ds).
Proof.
  induction 1 as [|l d ls ds Hl _ IH]; [done|]. simpl.
  rewrite (M_bind_ok _ _ _ _ _ (read_array_ok _ _ _ Hl)).
  by rewrite (M_bind_ok _ _ _ _ _ IH).
Qed.

(** The loop keeps the accumulated annotation at [annotation] and
    collects the locations of the buffers. *)
Lemma concat_loop_st_spec (σ : store) annotation refs chunks :
  σ !! annotation = None →
  Forall2 (λ c v, chunk_value σ c = Some v) refs chunks →
  ∀ acc data, ∃ ls,
    concat_loop_st annotation data refs (<[annotation := OAnnotation acc]> σ)
    = (<[annotation := OAnnotation (utils.concat_loop acc [] chunks).1]> σ,
       Ok (data ++ ls))
    ∧ Forall2 (λ l d, σ !! l = Some (OArray d)) ls
              ((λ c, SlidingWindowFeature.data c.2) <$> chunks).
Proof.
  intros Hfresh Hrefs.
  induction Hrefs as [|[la lw] [a w] refs chunks Hc _ IH]; intros acc data.
  - exists []. split; [by rewrite app_nil_r|constructor].
  - apply chunk_value_inv in Hc as (ld & lwin & Ha & Hw & Hd & _). simpl in Ha, Hw.
    assert (Hla : la ≠ annotation) by congruence.
    assert (Hlw : lw ≠ annotation) by congruence.
    destruct (IH (Annotation.update acc a) (data ++ [ld])) as (ls & Hrun & Hls).
    exists (ld :: ls). split; [|by constructor].
    cbn [concat_loop_st]. unfold update_st.
    rewrite (M_bind_ok _ _ _ (<[annotation:=OAnnotation (Annotation.update acc a)]> σ) ()).
    + rewrite (M_bind_ok _ _ _ _ _ (read_feature_ok _ lw ld lwin _
                 ltac:(by rewrite lookup_insert_ne))).
      cbn [fst]. rewrite Hrun. rewrite <-app_assoc. simpl.
      rewrite !concat_loop_spec. done.
    + rewrite (M_bind_ok _ _ _ _ _ (read_annotation_ok _ annotation acc
                 ltac:(by rewrite lookup_insert_eq))).
      rewrite (M_bind_ok _ _ _ _ _ (read_annotation_ok _ la a
                 ltac:(by rewrite lookup_insert_ne))).
      unfold write. by rewrite insert_insert_eq.
Qed.

Lemma new_object_spec (σ : store) o :
  new_object o σ = (<[fresh (dom σ) := o]> σ, Ok (fresh (dom σ)))
  ∧ σ !! fresh (dom σ) = None.
Proof. split; [done|]. apply not_elem_of_dom, is_fresh. Qed.

(** On chunks that denote values, [concat_st] raises what [concat]
    raises and returns references to what [concat] returns. *)
Lemma concat_st_refines refs collar (σ : store) chunks :
  Forall2 (λ c v, chunk_value σ c = Some v) refs chunks →
  ∃ σ' r, concat_st refs collar σ = (σ', r)
    ∧ match utils.concat chunks collar, r with
      | Ok v, Ok c => chunk_value σ' c = Some v
      | Raise e, Raise e' => e = e'
      | _, _ => False
      end.
Proof.
  intros Hrefs. destruct Hrefs as [|[la0 lw0] [a0 w0] refs chunks Hc0 Hrest].
  { by exists σ, (Raise IndexError). }
  pose proof (List.Forall2_cons _ _ Hc0 Hrest) as Hall.
  apply chunk_value_inv in Hc0 as (ld0 & lwin0 & Ha0 & Hw0 & Hd0 & Hwin0).
  simpl in Ha0, Hw0.
  rewrite concat_unfold. unfold concat_st.
  rewrite (M_bind_ok _ _ _ _ _ (read_annotation_ok _ _ _ Ha0)).
  destruct (new_object_spec σ (OAnnotation (Annotation.new (Annotation.uri a0))))
    as [Hnew1 Hf1].
  rewrite (M_bind_ok _ _ _ _ _ Hnew1). set (l1 := fresh (dom σ)) in *.
  destruct (concat_loop_st_spec σ l1 _ _ Hf1 Hall
              (Annotation.new (Annotation.uri a0)) []) as (ls & Hloop & Hls).
  rewrite (M_bind_ok _ _ _ _ _ Hloop). simpl app.
  change (utils.concat_loop (Annotation.new (Annotation.uri a0)) []
            ((a0, w0) :: chunks)).1 with (merged_annotation ((a0, w0) :: chunks)).
  set (merged := merged_annotation ((a0, w0) :: chunks)).
  set (σ2 := <[l1 := OAnnotation merged]> σ).
  assert (Hσ2 : σ ⊆ σ2) by (by apply insert_subseteq).
  rewrite (M_bind_ok _ _ _ _ _ (read_annotation_ok σ2 l1 merged
             ltac:(apply lookup_insert_eq))).
  destruct (Annotation_support_spec merged collar) as (a & Ha & _).
  rewrite Ha, bind_Ok.
  rewrite (M_bind_ok (lift (Ok a)) _ σ2 σ2 a eq_refl).
  destruct (new_object_spec σ2 (OAnnotation a)) as [Hnew2 Hf2].
  rewrite (M_bind_ok _ _ _ _ _ Hnew2). set (l2 := fresh (dom σ2)) in *.
  set (σ3 := <[l2 := OAnnotation a]> σ2).
  assert (Hσ3 : σ2 ⊆ σ3) by (by apply insert_subseteq).
  assert (Hσ03 : σ ⊆ σ3) by (by etrans).
  rewrite (M_bind_ok _ _ _ _ _ (read_feature_ok σ3 lw0 ld0 lwin0 _
             (lookup_weaken _ _ _ _ Hw0 Hσ03))).
  cbn [snd].
  rewrite (M_bind_ok _ _ _ _ _ (read_window_ok σ3 lwin0 _
             (lookup_weaken _ _ _ _ Hwin0 Hσ03))).
  cbn [snd].
  destruct (SlidingWindow.init _ _ _) as [win|e] eqn:Hinit.
  2:{ exists σ3, (Raise e). rewrite bind_Raise.
      by rewrite (M_bind_raise (lift (Raise e)) _ σ3 σ3 e eq_refl). }
  rewrite bind_Ok. rewrite (M_bind_ok (lift (Ok win)) _ σ3 σ3 win eq_refl).
  destruct (new_object_spec σ3 (OWindow win)) as [Hnew3 Hf3].
  rewrite (M_bind_ok _ _ _ _ _ Hnew3). set (l3 := fresh (dom σ3)) in *.
  set (σ4 := <[l3 := OWindow win]> σ3).
  assert (Hσ4 : σ3 ⊆ σ4) by (by apply insert_subseteq).
  assert (Hσ04 : σ ⊆ σ4) by (by etrans).
  rewrite (M_bind_ok _ _ _ _ _ (read_arrays_ok σ4 ls _
             (Forall2_impl _ _ _ _ Hls
                (λ l d H, lookup_weaken _ _ _ _ H Hσ04)))).
  destruct (np.concatenate _) as [arr|e] eqn:Hcat.
  2:{ exists σ4, (Raise e). rewrite bind_Raise.
      by rewrite (M_bind_raise (lift (Raise e)) _ σ4 σ4 e eq_refl). }
  rewrite bind_Ok. rewrite (M_bind_ok (lift (Ok arr)) _ σ4 σ4 arr eq_refl).
  destruct (new_object_spec σ4 (OArray arr)) as [Hnew4 Hf4].
  rewrite (M_bind_ok _ _ _ _ _ Hnew4). set (l4 := fresh (dom σ4)) in *.
  set (σ5 := <[l4 := OArray arr]> σ4).
  assert (Hσ5 : σ4 ⊆ σ5) by (by apply insert_subseteq).
  destruct (new_object_spec σ5 (OFeature l4 l3 None)) as [Hnew5 Hf5].
  rewrite (M_bind_ok _ _ _ _ _ Hnew5). set (l5 := fresh (dom σ5)) in *.
  set (σ6 := <[l5 := OFeature l4 l3 None]> σ5).
  assert (Hσ6 : σ5 ⊆ σ6) by (by apply insert_subseteq).
  exists σ6, (Ok (l2, l5)). split; [done|].
  unfold chunk_value. cbn [fst snd].
  assert (σ6 !! l2 = Some (OAnnotation a)) as ->.
  { apply (lookup_weaken σ3); [apply lookup_insert_eq|]. by do 2 (etrans; [done|]). }
  assert (σ6 !! l5 = Some (OFeature l4 l3 None)) as -> by apply lookup_insert_eq.
  assert (σ6 !! l4 = Some (OArray arr)) as ->.
  { apply (lookup_weaken σ5); [apply lookup_insert_eq|done]. }
  assert (σ6 !! l3 = Some (OWindow win)) as ->.
  { apply (lookup_weaken σ4); [apply lookup_insert_eq|]. by etrans. }
  done.
Qed.

(** ** Strings and [int] *)

Lemma str_length_app (p r : string) :
  String.length (p ++ r) = (String.length p + String.length r)%nat.
Proof. induction p as [|c p IH]; simpl; [done|]. by rewrite IH. Qed.

Lemma str_drop_app (p r : string) : str_drop (String.length p) (p ++ r) = r.
Proof. induction p as [|c p IH]; simpl; [by destruct r|done]. Qed.

Lemma str_last2_app (p : string) c1 c2 :
  str_last2 (p ++ String c1 (String c2 EmptyString))
  = String c1 (String c2 EmptyString).
Proof.
  unfold str_last2. rewrite str_length_app. simpl String.length.
  replace (String.length p + 2 - 2)%nat with (String.length p) by lia.
  apply str_drop_app.
Qed.

(** A label of two characters or more ends with two characters. *)
Lemma str_split_last2 (s : string) :
  (2 ≤ String.length s)%nat →
  ∃ p c1 c2, s = (p ++ String c1 (String c2 EmptyString))%string.
Proof.
  induction s as [|c s IH]; simpl; [lia|]. intros Hlen.
  destruct s as [|c' [|c'' s]].
  - simpl in Hlen. lia.
  - by exists EmptyString, c, c'.
  - destruct IH as (p & c1 & c2 & Hp); [simpl; lia|].
    exists (String c p), c1, c2. rewrite Hp. reflexivity.
Qed.

(** A character is a digit, a space, a plus, a minus, an underscore, or
    none of these. *)
Lemma char_class (c : ascii) :
  (∃ d, digit_val c = Some d ∧ is_space c = false ∧ is_plus c = false
        ∧ is_minus c = false ∧ is_underscore c = false)
  ∨ (digit_val c = None ∧
     ((is_space c = true ∧ is_plus c = false ∧ is_minus c = false
       ∧ is_underscore c = false)
      ∨ (is_space c = false ∧ is_plus c = true ∧ is_minus c = false
         ∧ is_underscore c = false)
      ∨ (is_space c = false ∧ is_plus c = false ∧ is_minus c = true
         ∧ is_underscore c = false)
      ∨ (is_space c = false ∧ is_plus c = false ∧ is_minus c = false))).
Proof.
  destruct c as [[] [] [] [] [] [] [] []]; vm_compute;
    first [ left; eexists; repeat split; reflexivity
          | right; split; [reflexivity|];
            first [ left; repeat split; reflexivity
                  | right; left; repeat split; reflexivity
                  | right; right; left; repeat split; reflexivity
                  | right; right; right; repeat split; reflexivity ] ].
Qed.

(** [int] on two characters follows the table [last2_int]. *)
Lemma py_int_two c1 c2 :
  py_int (String c1 (String c2 EmptyString)) = last2_int c1 c2.
Proof.
  unfold py_int, last2_int. simpl skip_space.
  destruct (char_class c1) as
    [(d1 & E1 & S1 & P1 & M1 & U1)
    |(E1 & [(S1 & P1 & M1 & U1)|[(S1 & P1 & M1 & U1)|[(S1 & P1 & M1 & U1)
            |(S1 & P1 & M1)]]])];
  destruct (char_class c2) as
    [(d2 & E2 & S2 & P2 & M2 & U2)
    |(E2 & [(S2 & P2 & M2 & U2)|[(S2 & P2 & M2 & U2)|[(S2 & P2 & M2 & U2)
            |(S2 & P2 & M2)]]])];
  repeat (simpl; rewrite ?E1, ?S1, ?P1, ?M1, ?E2, ?S2, ?P2, ?M2, ?U2);
    try reflexivity;
    try (destruct (is_underscore c2); simpl; rewrite ?S2; reflexivity);
    try (f_equal; lia).
Qed.

Lemma py_int_one c :
  py_int (String c EmptyString) = digit_val c.
Proof.
  unfold py_int. simpl skip_space.
  destruct (char_class c) as
    [(d & E & S & P & M & U)
    |(E & [(S & P & M & U)|[(S & P & M & U)|[(S & P & M & U)|(S & P & M)]]])];
  simpl; rewrite ?E, ?S, ?P, ?M; simpl; rewrite ?E; simpl; try reflexivity.
  f_equal. lia.
Qed.

(** ** The claims about the formatter *)

Lemma extract_speaker_id_str (s : string) :
  utils.extract_speaker_id (LStr s)
  = speaker_id_outcome (LStr s) (py_int (str_last2 s)).
Proof.
  unfold utils.extract_speaker_id, utils.extract_speaker_id_try.
  by destruct (py_int (str_last2 s)).
Qed.

(** C7, as amended. [extract_speaker_id] never raises. For a label of
    two characters or more it returns what [int] reads from the last two
    characters: the number of two digits, or a digit next to a space or
    after a sign; for a one-character label it returns the digit, if it is
    one (so "7" yields 7); in every other case, and for an absent label,
    it logs a warning and returns -1. "SPEAKER_07" yields 7, "X" yields
    -1. *)
Theorem C7_extract_speaker_id :
  (∀ speaker_label, ∃ z, (utils.extract_speaker_id speaker_label).2 = Ok z)
  ∧ (∀ p c1 c2,
       let s := (p ++ String c1 (String c2 EmptyString))%string in
       utils.extract_speaker_id (LStr s)
       = speaker_id_outcome (LStr s) (last2_int c1 c2))
  ∧ (∀ c, utils.extract_speaker_id (LStr (String c EmptyString))
          = speaker_id_outcome (LStr (String c EmptyString)) (digit_val c))
  ∧ utils.extract_speaker_id (LStr EmptyString)
    = ([Warning (LStr EmptyString) ValueError], Ok (-1))
  ∧ utils.extract_speaker_id LNone = ([Warning LNone TypeError], Ok (-1))
  ∧ utils.extract_speaker_id (LStr "SPEAKER_07") = ([], Ok 7)
  ∧ utils.extract_speaker_id (LStr "X") = ([Warning (LStr "X") ValueError], Ok (-1)).
Proof.
  split; [|split; [|split; [|repeat split]]].
  - intros [s|]; [|by exists (-1)].
    rewrite extract_speaker_id_str. destruct (py_int _) as [z|]; by eexists.
  - intros p c1 c2 s. rewrite extract_speaker_id_str. unfold s.
    by rewrite str_last2_app, py_int_two.
  - intros c. rewrite extract_speaker_id_str.
    by rewrite <-py_int_one.
Qed.

(** C7 as stated fails for a one-character label that is a digit: "7"
    is shorter than two characters and yields 7, not -1. *)
Lemma C7_counterexample :
  (String.length "7" < 2)%nat
  ∧ utils.extract_speaker_id (LStr "7") = ([], Ok 7)
  ∧ (utils.extract_speaker_id (LStr "7")).2 ≠ Ok (-1).
Proof. split; [simpl; lia|]. split; [reflexivity|discriminate]. Qed.

(** C10. For a label of two characters or more, the value returned is
    determined by the last two characters: the characters before them do
    not matter. "SPEAKER_123" yields 23, and a label that ends in "-1"
    yields -1, the value returned for a label that cannot be read. *)
Theorem C10_only_last_two_characters :
  (∀ s, (2 ≤ String.length s)%nat →
     ∃ p c1 c2, s = (p ++ String c1 (String c2 EmptyString))%string
       ∧ (utils.extract_speaker_id (LStr s)).2
         = Ok (default (-1) (last2_int c1 c2)))
  ∧ (∀ p q c1 c2,
       (utils.extract_speaker_id
          (LStr (p ++ String c1 (String c2 EmptyString)))).2
       = (utils.extract_speaker_id
            (LStr (q ++ String c1 (String c2 EmptyString)))).2)
  ∧ utils.extract_speaker_id (LStr "SPEAKER_123") = ([], Ok 23)
  ∧ (utils.extract_speaker_id (LStr "SPEAKER-1")).2 = Ok (-1)
  ∧ (utils.extract_speaker_id (LStr "X")).2 = Ok (-1).
Proof.
  assert (H : ∀ p c1 c2,
    (utils.extract_speaker_id (LStr (p ++ String c1 (String c2 EmptyString)))).2
    = Ok (default (-1) (last2_int c1 c2))).
  { intros p c1 c2. rewrite extract_speaker_id_str, str_last2_app, py_int_two.
    by destruct (last2_int c1 c2). }
  split; [|split; [|repeat split]].
  - intros s Hlen. destruct (str_split_last2 s Hlen) as (p & c1 & c2 & ->).
    exists p, c1, c2. split; [done|apply H].
  - intros p q c1 c2. by rewrite !H.
Qed.

Lemma C10_witness :
  ∃ p c1 c2, "SPEAKER_123"%string = (p ++ String c1 (String c2 EmptyString))%string
    ∧ (utils.extract_speaker_id (LStr "SPEAKER_123")).2
      = Ok (default (-1) (last2_int c1 c2)).
Proof.
  destruct C10_only_last_two_characters as [H _].
  apply (H "SPEAKER_123"%string). simpl. lia.
Defined.

Lemma str_app_assoc (a b c : string) : ((a ++ b) ++ c = a ++ (b ++ c))%string.
Proof.
  induction a as [|x a IH]; [done|].
  change (String x ((a ++ b) ++ c) = String x (a ++ (b ++ c)))%string.
  by rewrite IH.
Qed.

Lemma str_app_nil_r (a : string) : (a ++ "" = a)%string.
Proof.
  induction a as [|x a IH]; [done|].
  change (String x (a ++ "") = String x a)%string. by rewrite IH.
Qed.

Lemma concatenate_segments_spec (segments : list RecognizedSegment.t) :
  utils.concatenate_segments segments = join (RecognizedSegment.text <$> segments).
Proof.
  unfold utils.concatenate_segments, join.
  assert (H : ∀ acc,
    foldl (λ t seg, (t ++ RecognizedSegment.text seg)%string) acc segments
    = (acc ++ foldr String.append EmptyString (RecognizedSegment.text <$> segments))%string).
  { induction segments as [|seg segments IH]; intros acc.
    - simpl. by rewrite str_app_nil_r.
    - rewrite fmap_cons. cbn [foldl foldr]. by rewrite IH, str_app_assoc. }
  apply (H EmptyString).
Qed.

(** C8. [format_transcription] returns a document with the keys
    [language], [text] and [segments]: [language] is the info's
    language; [text] is the segments' texts one after the other with
    nothing in between; [segments] has one object per segment, in order,
    whose [words] are the segment's words in order, each as
    {word, start, end, probability, tokens} with [tokens] null. *)
Theorem C8_format_transcription segments info :
  let doc := utils.format_transcription segments info in
  dict_keys doc = ["language"; "text"; "segments"]%string
  ∧ getitem doc "language" = Some (PStr (TranscriptionInfo.language info))
  ∧ getitem doc "text" = Some (PStr (join (RecognizedSegment.text <$> segments)))
  ∧ ∃ out, getitem doc "segments" = Some (PList out)
      ∧ length out = length segments
      ∧ ∀ i segment, segments !! i = Some segment →
          ∃ o ws, out !! i = Some o
            ∧ getitem o "text" = Some (PStr (RecognizedSegment.text segment))
            ∧ getitem o "words" = Some (PList ws)
            ∧ length ws = length (RecognizedSegment.words segment)
            ∧ ∀ j w, RecognizedSegment.words segment !! j = Some w →
                ws !! j = Some (PDict [("word"%string, PStr (Word.word w));
                                       ("start"%string, PFloat (Word.start w));
                                       ("end"%string, PFloat (Word.end_ w));
                                       ("probability"%string,
                                          PFloat (Word.probability w));
                                       ("tokens"%string, PNone)]).
Proof.
  intros doc. unfold doc, utils.format_transcription.
  split; [done|]. split; [done|].
  split; [simpl; by rewrite concatenate_segments_spec|].
  eexists. split; [reflexivity|]. split; [by rewrite length_fmap|].
  intros i segment Hi.
  exists (utils.jsonify_segment segment),
         (utils.jsonify_word <$> RecognizedSegment.words segment).
  split; [by rewrite list_lookup_fmap, Hi|].
  split; [done|]. split; [done|]. split; [by rewrite length_fmap|].
  intros j w Hj. by rewrite list_lookup_fmap, Hj.
Qed.

Lemma C8_witness :
  getitem (utils.format_transcription
             [RecognizedSegment.mk 0 0 1 " Hello" [1] 0 0 1 0 0
                [Word.mk " Hello" 0 1 1];
              RecognizedSegment.mk 0 1 2 " world" [2] 0 0 1 0 1
                [Word.mk " world" 1 2 1]]
             (TranscriptionInfo.mk "en")) "text"
  = Some (PStr " Hello world").
Proof.
  exact (proj1 (proj2 (proj2 (C8_format_transcription _ _)))).
Defined.

Lemma jsonify_transcription_spec SPEAKER_MAPPING transcription :
  utils.jsonify_transcription SPEAKER_MAPPING transcription
  = (λ '(speaker, text, start, end_),
       turn (match SPEAKER_MAPPING !! speaker with
             | Some name => PStr name
             | None => PInt speaker
             end) text start end_) <$> transcription.
Proof.
  unfold utils.jsonify_transcription.
  set (f := λ '(speaker, text, start, end_), turn _ text start end_).
  assert (H : ∀ acc,
    foldl (λ result '(speaker, text, start, end_),
             result ++ [PDict [("speaker"%string,
                                 match SPEAKER_MAPPING !! speaker with
                                 | Some name => PStr name
                                 | None => PInt speaker
                                 end);
                                ("text"%string, PStr text);
                                ("start"%string, PFloat start);
                                ("end"%string, PFloat end_)]])
          acc transcription
    = acc ++ (f <$> transcription)).
  { induction transcription as [|[[[sp tx] st] en] l IH]; intros acc.
    - simpl. by rewrite app_nil_r.
    - rewrite fmap_cons. cbn [foldl]. rewrite IH. by rewrite <-app_assoc. }
  apply (H []).
Qed.

(** C9. [jsonify_transcription] returns one turn per input tuple, in the
    order of the input; the turn's [speaker] is the display name of the
    mapping when the id has one, and the id itself when it has none. *)
Theorem C9_jsonify_transcription SPEAKER_MAPPING transcription :
  let out := utils.jsonify_transcription SPEAKER_MAPPING transcription in
  length out = length transcription
  ∧ ∀ i speaker text start end_,
      transcription !! i = Some (speaker, text, start, end_) →
      (∀ name, SPEAKER_MAPPING !! speaker = Some name →
         out !! i = Some (turn (PStr name) text start end_))
      ∧ (SPEAKER_MAPPING !! speaker = None →
         out !! i = Some (turn (PInt speaker) text start end_)).
Proof.
  intros out. unfold out. rewrite jsonify_transcription_spec.
  split; [by rewrite length_fmap|].
  intros i speaker text start end_ Hi.
  rewrite list_lookup_fmap, Hi. simpl.
  split; [intros name ->|intros ->]; done.
Qed.

(** The example of the specification: mapping {0: "Alice"}. *)
Lemma C9_witness :
  utils.jsonify_transcription {[ 0 := "Alice"%string ]}
    [(0, "hi"%string, 0%float, 1%float); (1, "bye"%string, 1%float, 2%float)] !! 0%nat
  = Some (turn (PStr "Alice") "hi" 0 1)
  ∧ utils.jsonify_transcription {[ 0 := "Alice"%string ]}
      [(0, "hi"%string, 0%float, 1%float); (1, "bye"%string, 1%float, 2%float)] !! 1%nat
    = Some (turn (PInt 1) "bye" 1 2).
Proof.
  destruct (C9_jsonify_transcription {[ 0 := "Alice"%string ]}
              [(0, "hi"%string, 0%float, 1%float); (1, "bye"%string, 1%float, 2%float)])
    as [_ H].
  split.
  - apply (proj1 (H 0%nat 0 "hi"%string 0%float 1%float eq_refl)). reflexivity.
  - apply (proj2 (H 1%nat 1 "bye"%string 1%float 2%float eq_refl)). reflexivity.
Defined.

(** ** More about [concat]: what the result keeps and what it drops *)

Lemma example_chunks_intervals_A :
  intervals (merged_annotation example_chunks) "A"
  = {[ (0, 2000000); (2030000, 4000000) ]}.
Proof. vm_compute. reflexivity. Qed.

Lemma example_chunks_intervals_B :
  intervals (merged_annotation example_chunks) "B" = ∅.
Proof. vm_compute. reflexivity. Qed.

Lemma example_chunks_ok collar :
  ∃ a w, utils.concat example_chunks collar = Ok (a, w).
Proof.
  destruct (concat_ok (example_annotation [((0, 2000000), "A", "A")]%string,
                       example_waveform 2 500000 100000 0)
              [(example_annotation [((2030000, 4000000), "A", "A")]%string,
                example_waveform 3 500000 100000 2000000)]
              collar eq_refl (conj eq_refl eq_refl)) as (a & _ & Hrun).
  eexists a, _. exact Hrun.
Qed.

Lemma example_chunks_result_A a w :
  utils.concat example_chunks 50000 = Ok (a, w) →
  intervals a "A" = {[ (0, 4000000) ]}.
Proof.
  intros Hrun.
  destruct (concat_intervals _ _ _ _ "A"%string Hrun) as (out & Hsup & Hout).
  apply set_eq. intros o. rewrite Hout, elem_of_singleton.
  apply (is_support_two_near 50000 _ out (0, 2000000) (2030000, 4000000) Hsup
           example_chunks_intervals_A).
  left. reflexivity.
Qed.

(** X1. Every interval of a speaker in the accumulated annotation lies
    within an interval of that speaker in the result: no labelled time
    is lost. *)
Theorem X1_concat_covers_every_interval chunks collar a w speaker s :
  utils.concat chunks collar = Ok (a, w) →
  s ∈ intervals (merged_annotation chunks) speaker →
  ∃ o, o ∈ intervals a speaker ∧ spans o s.
Proof.
  intros Hrun Hs.
  destruct (concat_intervals _ _ _ _ speaker Hrun) as (out & Hsup & Hout).
  destruct Hsup as (_ & _ & _ & Hcover & _).
  destruct (Hcover s Hs) as (o & Ho & Hsp).
  exists o. split; [by apply Hout|done].
Qed.

Lemma X1_witness :
  ∃ a w o, utils.concat example_chunks 50000 = Ok (a, w)
    ∧ o ∈ intervals a "A" ∧ spans o (2030000, 4000000).
Proof.
  destruct (example_chunks_ok 50000) as (a & w & Hrun).
  pose proof (X1_concat_covers_every_interval example_chunks 50000 a w
                "A"%string (2030000, 4000000) Hrun) as H.
  rewrite example_chunks_intervals_A in H.
  destruct H as (o & Ho & Hsp).
  { apply elem_of_pair. right. reflexivity. }
  exists a, w, o. split; [exact Hrun|]. split; [exact Ho|exact Hsp].
Defined.

(** X2. Every interval of a speaker in the result is longer than the
    precision, starts where an interval of that speaker in the
    accumulated annotation starts, and ends where one ends: no bound is
    invented. *)
Theorem X2_concat_bounds_from_inputs chunks collar a w speaker o :
  utils.concat chunks collar = Ok (a, w) →
  o ∈ intervals a speaker →
  Segment.SEGMENT_PRECISION < Segment.end_ o - Segment.start o
  ∧ (∃ s, s ∈ intervals (merged_annotation chunks) speaker
          ∧ Segment.start o = Segment.start s)
  ∧ (∃ s, s ∈ intervals (merged_annotation chunks) speaker
          ∧ Segment.end_ o = Segment.end_ s).
Proof.
  intros Hrun Ho.
  destruct (concat_intervals _ _ _ _ speaker Hrun) as (out & Hsup & Hout).
  apply Hout in Ho.
  destruct Hsup as (_ & Hne & _ & _ & _ & Hbounds & _).
  rewrite Forall_forall in Hne.
  split; [by apply Hne|]. by apply Hbounds.
Qed.

Lemma X2_witness :
  ∃ a w, utils.concat example_chunks 50000 = Ok (a, w)
    ∧ ∃ s, s ∈ intervals (merged_annotation example_chunks) "A"
           ∧ Segment.start (0, 4000000) = Segment.start s.
Proof.
  destruct (example_chunks_ok 50000) as (a & w & Hrun).
  exists a, w. split; [exact Hrun|].
  pose proof (X2_concat_bounds_from_inputs example_chunks 50000 a w "A"%string
                (0, 4000000) Hrun) as H.
  rewrite (example_chunks_result_A a w Hrun) in H.
  exact (proj1 (proj2 (H (proj2 (elem_of_singleton _ _) eq_refl)))).
Defined.

(** X3. A speaker has an interval in the result exactly when it has one
    in the accumulated annotation: [concat] neither drops nor adds a
    speaker. *)
Theorem X3_concat_keeps_speakers chunks collar a w speaker :
  utils.concat chunks collar = Ok (a, w) →
  (∃ o, o ∈ intervals a speaker)
  ↔ (∃ s, s ∈ intervals (merged_annotation chunks) speaker).
Proof.
  intros Hrun.
  destruct (concat_intervals _ _ _ _ speaker Hrun) as (out & Hsup & Hout).
  destruct Hsup as (_ & _ & _ & Hcover & _ & Hbounds & _).
  split.
  - intros [o Ho]. apply Hout in Ho.
    destruct (Hbounds _ Ho) as [(s & Hs & _) _]. by exists s.
  - intros [s Hs]. destruct (Hcover s Hs) as (o & Ho & _).
    exists o. by apply Hout.
Qed.

Lemma X3_witness :
  ∃ a w, utils.concat example_chunks 50000 = Ok (a, w)
    ∧ ¬ ∃ o, o ∈ intervals a "B".
Proof.
  destruct (example_chunks_ok 50000) as (a & w & Hrun).
  exists a, w. split; [exact Hrun|].
  intros Ho.
  pose proof (proj1 (X3_concat_keeps_speakers example_chunks 50000 a w
                       "B"%string Hrun) Ho) as [s Hs].
  rewrite example_chunks_intervals_B in Hs.
  exact (not_elem_of_empty s Hs).
Defined.

Lemma same_channels_of_data c0 rest :
  forallb (λ a, (np.ncols a =? np.ncols (SlidingWindowFeature.data c0.2))%nat)
          ((λ c, SlidingWindowFeature.data c.2) <$> c0 :: rest) = true →
  same_channels (c0 :: rest).
Proof.
  unfold same_channels. generalize (c0 :: rest). intros l.
  induction l as [|x l IH]; [done|]. rewrite fmap_cons. simpl.
  intros [-> H]%andb_true_iff. by rewrite IH.
Qed.

Lemma concat_ok_inv c0 rest collar r :
  utils.concat (c0 :: rest) collar = Ok r →
  same_channels (c0 :: rest)
  ∧ window_ok (SlidingWindowFeature.sliding_window c0.2).
Proof.
  rewrite concat_unfold. intros Hrun.
  destruct (Annotation.support _ _) as [a'|]; [|done]. rewrite bind_Ok in Hrun.
  destruct (SlidingWindow.init _ _ _) as [win|] eqn:Hw; [|done].
  rewrite bind_Ok in Hrun.
  apply SlidingWindow_init_inv in Hw as [(_ & Hd & Hs)|Hw]; [|done].
  split; [|done].
  apply same_channels_of_data.
  unfold np.concatenate in Hrun. rewrite fmap_cons in Hrun |- *.
  by destruct (forallb _ _).
Qed.

(** X4. [concat] returns exactly for a non-empty list of chunks whose
    buffers have the first buffer's channel count and whose first window
    has a positive [duration] and a positive [step]; it raises
    [IndexError] for the empty list and [ValueError] otherwise. *)
Theorem X4_concat_returns_iff chunks collar :
  ((∃ r, utils.concat chunks collar = Ok r)
   ↔ ∃ c0, head chunks = Some c0 ∧ same_channels chunks
           ∧ window_ok (SlidingWindowFeature.sliding_window c0.2))
  ∧ (chunks = [] → utils.concat chunks collar = Raise IndexError)
  ∧ (chunks ≠ [] → (∀ r, utils.concat chunks collar ≠ Ok r) →
     utils.concat chunks collar = Raise ValueError).
Proof.
  split; [split|split].
  - intros [r Hrun]. destruct chunks as [|c0 rest]; [done|].
    exists c0. split; [done|]. by apply (concat_ok_inv c0 rest collar r).
  - intros (c0 & Hhead & Hsame & Hwin).
    destruct chunks as [|c rest]; [done|]. injection Hhead as ->.
    destruct (concat_ok c0 rest collar Hsame Hwin) as (a & _ & Hrun).
    by eexists.
  - by intros ->.
  - intros Hne Hno.
    destruct (utils.concat chunks collar) as [r|e] eqn:Hrun; [by destruct (Hno r)|].
    destruct (concat_raise _ _ _ Hrun) as [[-> _]|[_ ->]]; done.
Qed.

Lemma X4_witness :
  utils.concat
    [(example_annotation [((0, 2000000), "A", "A")]%string,
      example_waveform 2 500000 100000 0);
     (example_annotation [((2030000, 4000000), "A", "A")]%string,
      SlidingWindowFeature.mk (np.mk 2 [[0%float; 0%float]])
        (SlidingWindow.mk 500000 100000 0 None) None)] 50000
  = Raise ValueError.
Proof.
  apply (proj2 (proj2 (X4_concat_returns_iff _ 50000))).
  - discriminate.
  - intros r Hr. vm_compute in Hr. discriminate Hr.
Defined.

Lemma foldl_update_uri chunks : ∀ acc,
  Annotation.uri
    (foldl (λ acc (c : Annotation.t * SlidingWindowFeature.t),
              Annotation.update acc c.1) acc chunks) = Annotation.uri acc
  ∧ Annotation.modality
      (foldl (λ acc (c : Annotation.t * SlidingWindowFeature.t),
                Annotation.update acc c.1) acc chunks) = Annotation.modality acc.
Proof.
  induction chunks as [|c chunks IH]; intros acc; [done|].
  cbn [foldl]. destruct (IH (Annotation.update acc c.1)) as [-> ->].
  by destruct (update_spec acc c.1) as (-> & -> & _).
Qed.

(** X5. The annotation that [concat] returns carries the [uri] of the
    first chunk's annotation, whatever the later chunks' are, and no
    modality; the waveform it returns has no labels and a window without
    an end, whatever the first chunk's feature had. *)
Theorem X5_concat_identity_of_result c0 rest collar a w :
  utils.concat (c0 :: rest) collar = Ok (a, w) →
  Annotation.uri a = Annotation.uri c0.1
  ∧ Annotation.modality a = None
  ∧ SlidingWindowFeature.labels w = None
  ∧ SlidingWindow.end_ (SlidingWindowFeature.sliding_window w) = None.
Proof.
  intros Hrun. pose proof Hrun as Hrun0.
  apply concat_inv in Hrun as (c & rest0 & [= <- <-] & Ha & Hw & _).
  destruct (Annotation_support_spec (merged_annotation (c0 :: rest)) collar)
    as (a' & Ha' & Huri & Hmod & _).
  assert (a' = a) as -> by congruence.
  rewrite Huri, Hmod, Hw. unfold merged_annotation. destruct c0 as [a0 w0].
  rewrite concat_loop_spec. cbn [fst].
  destruct (foldl_update_uri ((a0, w0) :: rest)
              (Annotation.new (Annotation.uri a0))) as [-> ->].
  repeat split.
  rewrite concat_unfold in Hrun0.
  destruct (Annotation.support _ _); [|done]. rewrite bind_Ok in Hrun0.
  destruct (SlidingWindow.init _ _ _); [|done]. rewrite bind_Ok in Hrun0.
  destruct (np.concatenate _); [|done]. rewrite bind_Ok in Hrun0.
  by injection Hrun0 as _ <-.
Qed.

Lemma X5_witness :
  ∃ a w, utils.concat example_chunks 50000 = Ok (a, w)
    ∧ Annotation.uri a = Some "s"%string.
Proof.
  destruct (example_chunks_ok 50000) as (a & w & Hrun).
  exists a, w. split; [exact Hrun|].
  exact (proj1 (X5_concat_identity_of_result _ _ 50000 a w Hrun)).
Defined.

(** X6. When several chunks give a label to the same (segment, track)
    key, the last one wins: the accumulated annotation holds, for a key on
    a non-empty segment, the label of the last chunk that has the key, and
    the segment is an interval of that label's speaker. *)
Theorem X6_last_chunk_wins pre c post (key : Segment.t * string) label :
  Annotation.tracks c.1 !! key = Some label →
  Is_true (Segment.bool key.1) →
  (∀ c', c' ∈ post → Annotation.tracks c'.1 !! key = None) →
  Annotation.tracks (merged_annotation (pre ++ c :: post)) !! key = Some label
  ∧ key.1 ∈ intervals (merged_annotation (pre ++ c :: post)) label.
Proof.
  intros Hc Hne Hpost.
  assert (Hlook : Annotation.tracks (merged_annotation (pre ++ c :: post)) !! key
                  = Some label).
  { rewrite merged_annotation_tracks, foldl_app. cbn [foldl]. rewrite Hc.
    destruct (Segment.bool key.1); [|done].
    generalize (Some label). intros acc.
    induction post as [|c' post IH]; [done|]. cbn [foldl].
    rewrite (Hpost c') by (by left). apply IH.
    intros c'' Hc''. apply Hpost. by right. }
  split; [done|].
  apply label_timeline_elem. split; [by apply Segment_bool_spec|].
  exists key.2. by destruct key.
Qed.

Lemma X6_witness :
  Annotation.tracks
    (merged_annotation
       ([(example_annotation [((0, 2000000), "A", "A")]%string,
          example_waveform 2 500000 100000 0)]
        ++ (example_annotation [((0, 2000000), "A", "B")]%string,
            example_waveform 3 500000 100000 0) :: []))
    !! ((0, 2000000), "A"%string) = Some "B"%string.
Proof.
  apply (X6_last_chunk_wins
           [(example_annotation [((0, 2000000), "A", "A")]%string,
             example_waveform 2 500000 100000 0)]
           (example_annotation [((0, 2000000), "A", "B")]%string,
            example_waveform 3 500000 100000 0) []
           ((0, 2000000), "A"%string) "B"%string).
  - vm_compute. reflexivity.
  - vm_compute. exact I.
  - intros c' Hc'. destruct (not_elem_of_nil c' Hc').
Defined.

(** ** Merging a merged result again *)

Lemma label_timeline_update_new uri (a : Annotation.t) label :
  Annotation.label_timeline (Annotation.update (Annotation.new uri) a) label
  = Annotation.label_timeline a label.
Proof.
  apply set_eq. intros s. rewrite !label_timeline_elem.
  split; intros [Hne [track Hk]]; (split; [done|]); exists track.
  - destruct (update_spec (Annotation.new uri) a) as (_ & _ & Hlook).
    rewrite Hlook in Hk. simpl in Hk.
    destruct (Annotation.tracks a !! (s, track)) as [l|]; [|by rewrite lookup_empty in Hk].
    apply Segment_bool_spec in Hne. by destruct (Segment.bool s).
  - destruct (update_spec (Annotation.new uri) a) as (_ & _ & ->).
    rewrite Hk. simpl. apply Segment_bool_spec in Hne.
    by destruct (Segment.bool s).
Qed.

(** The support of a timeline that is separated already is the
    timeline. *)
Lemma is_support_of_separated (collar : Z) (T : Timeline.t)
    (out1 out2 : list Segment.t) :
  (∀ s, s ∈ T ↔ s ∈ out1) → StronglySorted (sep collar) out1 →
  is_support collar T out2 → ∀ o, o ∈ out2 ↔ o ∈ T.
Proof.
  intros HT Hsorted Hsup.
  pose proof Hsup as (Hne & Hne2 & _ & Hcover & _ & Hbounds & Hpause).
  rewrite Forall_forall in Hne2.
  assert (Hin : ∀ o, o ∈ out2 → o ∈ T).
  { intros o Ho. pose proof (Hne2 _ Ho) as Hno.
    destruct (Hbounds _ Ho) as [(s & Hs & E1) (s' & Hs' & E2)].
    pose proof (Hne _ Hs) as Hns. pose proof (Hne _ Hs') as Hns'.
    pose proof (proj1 (HT _) Hs) as Hs1.
    apply list_elem_of_split in Hs1 as (l1 & l2 & Hsplit).
    rewrite Hsplit in Hsorted.
    pose proof (proj1 (HT _) Hs') as Hs2. rewrite Hsplit in Hs2.
    apply elem_of_app in Hs2 as [Hs2|Hs2].
    - pose proof (StronglySorted_app_1_elem_of _ _ _ s' s Hsorted Hs2
                    ltac:(by left)) as Hsep.
      unfold sep in Hsep. lia.
    - apply elem_of_cons in Hs2 as [->|Hs2].
      + assert (o = s) as -> by (destruct o, s; simpl in *; congruence). done.
      + exfalso. destruct l2 as [|q l2]; [by apply elem_of_nil in Hs2|].
        assert (Hq : q ∈ T) by (apply HT; rewrite Hsplit, elem_of_app; right; right; by left).
        pose proof (Hne _ Hq) as Hnq.
        pose proof (StronglySorted_app_1_r _ _ _ Hsorted) as Hsorted2.
        apply StronglySorted_inv in Hsorted2 as [Hsorted3 Hsq].
        apply Forall_cons in Hsq as [Hsq _].
        apply StronglySorted_inv in Hsorted3 as [_ Hql2].
        rewrite Forall_forall in Hql2.
        assert (Hs'q : q.1 ≤ s'.1).
        { apply elem_of_cons in Hs2 as [->|Hs2]; [lia|].
          pose proof (Hql2 _ Hs2) as H. unfold sep in H. lia. }
        unfold sep in Hsq.
        destruct (Hpause s.2 q.1) with (o := o) as [H|H]; [lia..| |done|lia|lia].
        intros t Ht. apply HT in Ht. rewrite Hsplit in Ht.
        apply elem_of_app in Ht as [Ht|Ht].
        * pose proof (StronglySorted_app_1_elem_of _ _ _ t s Hsorted Ht
                        ltac:(by left)) as H. unfold sep in H. lia.
        * apply elem_of_cons in Ht as [->|Ht]; [lia|].
          apply elem_of_cons in Ht as [->|Ht]; [lia|].
          pose proof (Hql2 _ Ht) as H. unfold sep in H. lia. }
  intros o. split; [apply Hin|].
  intros Ho. destruct (Hcover o Ho) as (o' & Ho' & Hsp).
  pose proof (Hin _ Ho') as Ho'T.
  pose proof (Hne _ Ho). pose proof (Hne _ Ho'T).
  destruct (separated_cases collar out1 o o' Hsorted) as [->|[H1|H1]];
    [by apply HT..|done| |]; unfold sep in H1; seg_unfold; lia.
Qed.

(** X7. Merging a merged result again changes nothing: [concat] on the
    single chunk that [concat] returned gives, with the same collar, the
    same intervals for every speaker, the same buffer and the same
    window. *)
Theorem X7_concat_idempotent chunks collar a w :
  utils.concat chunks collar = Ok (a, w) →
  ∃ a2 w2, utils.concat [(a, w)] collar = Ok (a2, w2)
    ∧ (∀ speaker, intervals a2 speaker = intervals a speaker)
    ∧ SlidingWindowFeature.data w2 = SlidingWindowFeature.data w
    ∧ SlidingWindowFeature.sliding_window w2
      = SlidingWindowFeature.sliding_window w.
Proof.
  intros Hrun.
  pose proof Hrun as Hrun0.
  apply concat_inv in Hrun0 as (c0 & rest & -> & _ & Hwin & _).
  destruct (concat_ok_inv _ _ _ _ Hrun) as [_ [Hd Hs]].
  assert (Hsame : same_channels [(a, w)]).
  { unfold same_channels. simpl. by rewrite Nat.eqb_refl. }
  assert (Hok : window_ok (SlidingWindowFeature.sliding_window w)).
  { rewrite Hwin. by split. }
  destruct (concat_ok (a, w) [] collar Hsame Hok) as (a2 & _ & Hrun2).
  eexists a2, _. split; [exact Hrun2|]. split; [|split].
  - intros speaker.
    destruct (concat_intervals _ _ _ _ speaker Hrun) as (out1 & Hsup1 & Hout1).
    destruct (concat_intervals _ _ _ _ speaker Hrun2) as (out2 & Hsup2 & Hout2).
    assert (Hmerged : intervals (merged_annotation [(a, w)]) speaker
                      = intervals a speaker).
    { unfold intervals, merged_annotation. rewrite concat_loop_spec.
      apply label_timeline_update_new. }
    rewrite Hmerged in Hsup2.
    apply set_eq. intros o. rewrite Hout2.
    apply (is_support_of_separated collar _ out1 out2); [done| |done].
    by destruct Hsup1 as (_ & _ & ? & _).
  - simpl. rewrite app_nil_r. by destruct (SlidingWindowFeature.data w).
  - simpl. by rewrite Hwin.
Qed.

Lemma X7_witness :
  ∃ a w a2 w2, utils.concat example_chunks 50000 = Ok (a, w)
    ∧ utils.concat [(a, w)] 50000 = Ok (a2, w2)
    ∧ intervals a2 "A" = intervals a "A".
Proof.
  destruct (example_chunks_ok 50000) as (a & w & Hrun).
  destruct (X7_concat_idempotent example_chunks 50000 a w Hrun)
    as (a2 & w2 & Hrun2 & Hint & _).
  exists a, w, a2, w2. split; [exact Hrun|]. split; [exact Hrun2|].
  exact (Hint "A"%string).
Defined.

(** ** Speakers are merged independently *)

(** [support] gives every label the segments of its own round. *)
Lemma Annotation_support_segments (a : Annotation.t) collar a' :
  Annotation.support a collar = Ok a' →
  ∀ label, ∃ out, Annotation.support_segments a collar label = Ok out
    ∧ ∀ s, s ∈ Annotation.label_timeline a' label ↔ s ∈ out.
Proof.
  intros Hsupport.
  destruct (support_labels_spec a collar (Annotation.labels a)
              (0%nat, Annotation.empty a) [])
    as (st' & Hrun & [Hinv1 Hinv2] & _).
  { split; [|intros ? ? ? Hd; by apply elem_of_nil in Hd].
    intros s track lbl Hk. simpl in Hk. by rewrite lookup_empty in Hk. }
  unfold Annotation.support in Hsupport. rewrite Hrun in Hsupport.
  injection Hsupport as <-. simpl in *.
  intros label.
  destruct (support_segments_spec a collar label) as (out & Hout & Hsup).
  exists out. split; [done|]. intros s. rewrite label_timeline_elem. split.
  - intros [_ [track Hk]].
    destruct (Hinv1 _ _ _ Hk) as (_ & _ & out' & Hout' & Hs). congruence.
  - intros Hs. destruct Hsup as (_ & Hne & _ & _ & _ & Hbounds & _).
    split; [rewrite Forall_forall in Hne; by apply Hne|].
    eapply Hinv2; [|done..].
    destruct (Hbounds _ Hs) as [(s' & Hs' & _) _].
    apply label_timeline_elem in Hs' as [_ [track Hk]].
    apply labels_elem. by eexists.
Qed.

(** X8. The intervals of a speaker in the result depend on that
    speaker's intervals in the accumulated annotation only: two calls
    whose accumulated annotations agree on a speaker return the same
    intervals for that speaker, whatever the other speakers' are. *)
Theorem X8_concat_speakers_independent chunks1 chunks2 collar a1 w1 a2 w2 speaker :
  utils.concat chunks1 collar = Ok (a1, w1) →
  utils.concat chunks2 collar = Ok (a2, w2) →
  intervals (merged_annotation chunks1) speaker
  = intervals (merged_annotation chunks2) speaker →
  intervals a1 speaker = intervals a2 speaker.
Proof.
  intros Hrun1 Hrun2 Heq.
  apply concat_inv in Hrun1 as (c1 & rest1 & _ & Ha1 & _).
  apply concat_inv in Hrun2 as (c2 & rest2 & _ & Ha2 & _).
  destruct (Annotation_support_segments _ _ _ Ha1 speaker) as (out1 & Hs1 & Hout1).
  destruct (Annotation_support_segments _ _ _ Ha2 speaker) as (out2 & Hs2 & Hout2).
  unfold Annotation.support_segments in Hs1, Hs2.
  unfold intervals in Heq. rewrite Heq in Hs1.
  assert (out1 = out2) as -> by congruence.
  apply set_eq. intros s. unfold intervals. by rewrite Hout1, Hout2.
Qed.

Lemma X8_witness :
  ∃ a1 w1 a2 w2,
    utils.concat example_chunks 50000 = Ok (a1, w1)
    ∧ utils.concat
        [(example_annotation [((0, 2000000), "A", "A");
                              ((2030000, 4000000), "A", "A");
                              ((0, 9000000), "B", "B")]%string,
          example_waveform 2 500000 100000 0)] 50000 = Ok (a2, w2)
    ∧ intervals a1 "A" = intervals a2 "A".
Proof.
  destruct (example_chunks_ok 50000) as (a1 & w1 & Hrun1).
  destruct (concat_ok
              (example_annotation [((0, 2000000), "A", "A");
                                   ((2030000, 4000000), "A", "A");
                                   ((0, 9000000), "B", "B")]%string,
               example_waveform 2 500000 100000 0) [] 50000
              eq_refl (conj eq_refl eq_refl)) as (a2 & _ & Hrun2).
  eexists a1, w1, a2, _. split; [exact Hrun1|]. split; [exact Hrun2|].
  apply (X8_concat_speakers_independent _ _ 50000 a1 w1 a2 _ "A"%string
           Hrun1 Hrun2).
  vm_compute. reflexivity.
Defined.

(** ** The store: the result shares no object with the inputs *)

Lemma grows_of_frame_safe {A : Type} (m : M A) (σ σ1 : store) r :
  frame_safe ∅ m → m σ = (σ1, r) → σ ⊆ σ1.
Proof. intros Hm Hrun. apply (Hm σ σ σ1 r); [done|set_solver|done]. Qed.

Lemma new_object_inv (σ σ1 : store) o l :
  new_object o σ = (σ1, Ok l) →
  l = fresh (dom σ) ∧ σ1 = <[l := o]> σ ∧ σ !! l = None ∧ σ ⊆ σ1.
Proof.
  intros [= <- <-].
  assert (σ !! fresh (dom σ) = None) by apply not_elem_of_dom, is_fresh.
  repeat split; [done|]. by apply insert_subseteq.
Qed.

Lemma lift_inv {A : Type} (x : result A) (σ σ1 : store) r :
  lift x σ = (σ1, r) → σ1 = σ ∧ r = x.
Proof. by intros [= <- <-]. Qed.

(** X9. The annotation and the feature that [concat] returns are new
    objects, and so are the buffer and the window of that feature: none
    of them is an object of the store before the call, so changing the
    result later cannot change an input. *)
Theorem X9_concat_result_is_fresh refs collar (σ σ' : store) la lf :
  concat_st refs collar σ = (σ', Ok (la, lf)) →
  (la ∉ dom σ) ∧ (lf ∉ dom σ) ∧ la ≠ lf
  ∧ (∃ a, σ' !! la = Some (OAnnotation a))
  ∧ ∃ ld lw, σ' !! lf = Some (OFeature ld lw None)
      ∧ (ld ∉ dom σ) ∧ (lw ∉ dom σ)
      ∧ (∃ d, σ' !! ld = Some (OArray d))
      ∧ (∃ win, σ' !! lw = Some (OWindow win)).
Proof.
  destruct refs as [|[first_annotation first_waveform] rest]; [done|].
  unfold concat_st. intros H.
  apply M_bind_inv in H as [(σ1 & first & H1 & H)|(e & _ & [=])].
  pose proof (grows_of_frame_safe _ _ _ _ (frame_safe_read_annotation ∅ _) H1) as G1.
  apply M_bind_inv in H as [(σ2 & l1 & H2 & H)|(e & _ & [=])].
  apply new_object_inv in H2 as (_ & _ & Hl1 & G2).
  apply M_bind_inv in H as [(σ3 & data & H3 & H)|(e & _ & [=])].
  assert (G3 : σ ⊆ σ3).
  { assert (Hin1 : l1 ∈ ({[l1]} : gset loc)) by (by apply elem_of_singleton).
    apply (frame_safe_concat_loop_st {[l1]} l1
             ((first_annotation, first_waveform) :: rest) [] Hin1
             σ σ2 σ3 (Ok data));
      [by etrans| |done].
    intros l Hl ->%elem_of_singleton.
    apply elem_of_dom in Hl as [o Hl].
    by rewrite (lookup_weaken _ _ _ _ Hl G1) in Hl1. }
  apply M_bind_inv in H as [(σ4 & merged & H4 & H)|(e & _ & [=])].
  pose proof (grows_of_frame_safe _ _ _ _ (frame_safe_read_annotation ∅ _) H4) as G4.
  apply M_bind_inv in H as [(σ5 & support & H5 & H)|(e & _ & [=])].
  apply lift_inv in H5 as [-> _].
  apply M_bind_inv in H as [(σ6 & l2 & H6 & H)|(e & _ & [=])].
  apply new_object_inv in H6 as (_ & -> & Hl2 & G6).
  apply M_bind_inv in H as [(σ7 & f & H7 & H)|(e & _ & [=])].
  pose proof (grows_of_frame_safe _ _ _ _ (frame_safe_read_feature ∅ _) H7) as G7.
  apply M_bind_inv in H as [(σ8 & sw & H8 & H)|(e & _ & [=])].
  pose proof (grows_of_frame_safe _ _ _ _ (frame_safe_read_window ∅ _) H8) as G8.
  apply M_bind_inv in H as [(σ9 & window & H9 & H)|(e & _ & [=])].
  apply lift_inv in H9 as [-> _].
  apply M_bind_inv in H as [(σ10 & l3 & H10 & H)|(e & _ & [=])].
  apply new_object_inv in H10 as (_ & -> & Hl3 & G10).
  apply M_bind_inv in H as [(σ11 & arrays & H11 & H)|(e & _ & [=])].
  pose proof (grows_of_frame_safe _ _ _ _ (frame_safe_read_arrays ∅ _) H11) as G11.
  apply M_bind_inv in H as [(σ12 & array & H12 & H)|(e & _ & [=])].
  apply lift_inv in H12 as [-> _].
  apply M_bind_inv in H as [(σ13 & l4 & H13 & H)|(e & _ & [=])].
  apply new_object_inv in H13 as (_ & -> & Hl4 & G13).
  apply M_bind_inv in H as [(σ14 & l5 & H14 & H)|(e & _ & [=])].
  apply new_object_inv in H14 as (_ & -> & Hl5 & G14).
  injection H as <- <- <-.
  set (σa := <[l2 := OAnnotation support]> σ4) in *.
  set (σw := <[l3 := OWindow window]> σ8) in *.
  set (σd := <[l4 := OArray array]> σ11) in *.
  set (σf := <[l5 := OFeature l4 l3 None]> σd) in *.
  assert (Gwf : σw ⊆ σf).
  { etrans; [exact G11|]. etrans; [exact G13|]. exact G14. }
  assert (Gad : σa ⊆ σd).
  { etrans; [exact G7|]. etrans; [exact G8|]. etrans; [exact G10|].
    etrans; [exact G11|]. exact G13. }
  assert (Ga : σa ⊆ σf) by (etrans; [exact Gad|exact G14]).
  assert (G0a : σ ⊆ σ4) by (etrans; [exact G3|exact G4]).
  assert (G0d : σ ⊆ σd) by (etrans; [exact G0a|]; etrans; [exact G6|exact Gad]).
  assert (G0w : σ ⊆ σ8).
  { etrans; [exact G0a|]. etrans; [exact G6|]. etrans; [exact G7|exact G8]. }
  assert (G0d' : σ ⊆ σ11).
  { etrans; [exact G0w|]. etrans; [exact G10|exact G11]. }
  assert (Hfresh : ∀ (τ : store) l, σ ⊆ τ → τ !! l = None → l ∉ dom σ).
  { intros τ l Hsub Hnone Hin. apply elem_of_dom in Hin as [o Hin].
    by rewrite (lookup_weaken _ _ _ _ Hin Hsub) in Hnone. }
  assert (Hla : σf !! l2 = Some (OAnnotation support)).
  { apply (lookup_weaken σa); [apply lookup_insert_eq|done]. }
  assert (Hlf : σf !! l5 = Some (OFeature l4 l3 None)) by apply lookup_insert_eq.
  split; [by apply (Hfresh σ4)|]. split; [by apply (Hfresh σd)|].
  split.
  { intros ->. assert (σd !! l5 = Some (OAnnotation support)); [|congruence].
    apply (lookup_weaken σa); [apply lookup_insert_eq|exact Gad]. }
  split; [by eexists|].
  exists l4, l3. split; [done|]. split; [by apply (Hfresh σ11)|].
  split; [by apply (Hfresh σ8)|]. split.
  - exists array. apply (lookup_weaken σd); [apply lookup_insert_eq|exact G14].
  - exists window. apply (lookup_weaken σw); [apply lookup_insert_eq|exact Gwf].
Qed.

Lemma X9_witness :
  ∃ σ' la lf, concat_st [(1, 3); (2, 4)]%positive 50000 example_store = (σ', Ok (la, lf))
    ∧ (la ∉ dom example_store) ∧ (lf ∉ dom example_store).
Proof.
  destruct (concat_st [(1, 3); (2, 4)]%positive 50000 example_store)
    as [σ' [[la lf]|e]] eqn:Hrun.
  - exists σ', la, lf. split; [reflexivity|].
    destruct (X9_concat_result_is_fresh _ _ _ _ _ _ Hrun) as (H1 & H2 & _).
    split; [exact H1|exact H2].
  - vm_compute in Hrun. discriminate Hrun.
Defined.

(** ** More about [extract_speaker_id] *)

Lemma digit_val_range c d : digit_val c = Some d → 0 ≤ d ≤ 9.
Proof.
  unfold digit_val.
  destruct (_ && _)%bool eqn:H; [|done]. intros [= <-].
  apply andb_true_iff in H as [H1%Nat.leb_le H2%Nat.leb_le]. lia.
Qed.

Lemma last2_int_range c1 c2 z : last2_int c1 c2 = Some z → -9 ≤ z ≤ 99.
Proof.
  unfold last2_int.
  destruct (digit_val c1) as [d1|] eqn:E1; destruct (digit_val c2) as [d2|] eqn:E2;
    try apply digit_val_range in E1; try apply digit_val_range in E2;
    repeat (destruct (_ || _)%bool || destruct (is_minus _) || destruct (is_space _));
    intros [= <-]; lia.
Qed.

Lemma digit_val_digit_char d : 0 ≤ d ≤ 9 → digit_val (digit_char d) = Some d.
Proof.
  intros Hd. unfold digit_val, digit_char.
  rewrite nat_ascii_embedding by lia.
  destruct (_ && _)%bool eqn:H.
  - f_equal. lia.
  - apply andb_false_iff in H as [H%Nat.leb_gt|H%Nat.leb_gt]; lia.
Qed.

(** X10. Whatever the label, the value that [extract_speaker_id] returns
    lies between -9 and 99: it reads two characters at most. *)
Theorem X10_extract_speaker_id_range speaker_label :
  ∃ z, (utils.extract_speaker_id speaker_label).2 = Ok z ∧ -9 ≤ z ≤ 99.
Proof.
  destruct speaker_label as [s|]; [|exists (-1); split; [done|lia]].
  rewrite extract_speaker_id_str.
  destruct s as [|c [|c' s]].
  - exists (-1). split; [done|lia].
  - change (str_last2 (String c EmptyString)) with (String c EmptyString).
    rewrite py_int_one.
    destruct (digit_val c) as [d|] eqn:E.
    + exists d. split; [done|]. apply digit_val_range in E. lia.
    + exists (-1). split; [done|lia].
  - destruct (str_split_last2 (String c (String c' s))) as (p & c1 & c2 & ->);
      [simpl; lia|].
    rewrite str_last2_app, py_int_two.
    destruct (last2_int c1 c2) as [z|] eqn:E.
    + exists z. split; [done|]. by apply last2_int_range in E.
    + exists (-1). split; [done|lia].
Qed.

(** X11. A speaker number from 0 to 99 written with two digits after
    any prefix is read back unchanged, and nothing is logged. *)
Theorem X11_extract_speaker_id_round_trip (p : string) n :
  0 ≤ n ≤ 99 →
  utils.extract_speaker_id (LStr (p ++ two_digits n)) = ([], Ok n).
Proof.
  intros Hn. rewrite extract_speaker_id_str. unfold two_digits.
  rewrite str_last2_app, py_int_two. unfold last2_int.
  assert (0 ≤ n / 10 ≤ 9).
  { split; [apply Z.div_pos; lia|].
    assert (n / 10 < 10); [apply Z.div_lt_upper_bound; lia|lia]. }
  pose proof (Z.mod_pos_bound n 10 ltac:(lia)).
  rewrite !digit_val_digit_char by lia.
  unfold speaker_id_outcome. do 2 f_equal.
  pose proof (Z.div_mod n 10 ltac:(lia)). lia.
Qed.

Lemma X11_witness :
  utils.extract_speaker_id (LStr ("SPEAKER_" ++ two_digits 42)) = ([], Ok 42).
Proof. apply X11_extract_speaker_id_round_trip. lia. Defined.

(** ** [format_whisper_model_name] *)

Lemma ascii_upper_below c :
  (nat_of_ascii c < 128)%nat → (nat_of_ascii (ascii_upper c) < 128)%nat.
Proof.
  intros Hc. unfold ascii_upper.
  destruct (_ && _)%bool eqn:H; [|done].
  apply andb_true_iff in H as [H1%Nat.leb_le H2%Nat.leb_le].
  rewrite nat_ascii_embedding by lia. lia.
Qed.

Lemma ascii_upper_not_lower c : is_lower (ascii_upper c) = false.
Proof.
  unfold ascii_upper. cbv zeta.
  destruct ((97 <=? nat_of_ascii c)%nat && (nat_of_ascii c <=? 122)%nat)%bool eqn:H;
    [|exact H].
  apply andb_true_iff in H as [H1%Nat.leb_le H2%Nat.leb_le].
  unfold is_lower. cbv zeta. rewrite nat_ascii_embedding by lia.
  apply andb_false_iff. left. apply Nat.leb_gt. lia.
Qed.

Lemma ascii_upper_idem c : ascii_upper (ascii_upper c) = ascii_upper c.
Proof.
  unfold ascii_upper at 1. pose proof (ascii_upper_not_lower c) as H.
  unfold is_lower in H. by rewrite H.
Qed.

Lemma ascii_upper_dash c :
  Ascii.eqb (ascii_upper c) "-" = Ascii.eqb c "-".
Proof.
  unfold ascii_upper.
  destruct (_ && _)%bool eqn:H; [|done].
  apply andb_true_iff in H as [H1%Nat.leb_le H2%Nat.leb_le].
  transitivity false.
  - apply Ascii.eqb_neq. intros E. apply (f_equal nat_of_ascii) in E.
    rewrite nat_ascii_embedding in E by lia.
    change (nat_of_ascii "-") with 45%nat in E. lia.
  - symmetry. apply Ascii.eqb_neq. intros ->.
    change (nat_of_ascii "-") with 45%nat in H1. lia.
Qed.

Lemma ascii_upper_underscore : ascii_upper "_" = "_"%char.
Proof. reflexivity. Qed.

(** X12. For a name of characters below 128, [format_whisper_model_name]
    keeps the length and works character by character: a dash becomes
    an underscore, a lower-case letter its capital, and every other
    character stays. *)
Theorem X12_format_whisper_model_name_pointwise model_name :
  Is_true (str_is_ascii model_name) →
  String.length (utils.format_whisper_model_name model_name)
  = String.length model_name
  ∧ ∀ i c, String.get i model_name = Some c →
      String.get i (utils.format_whisper_model_name model_name)
      = Some (if Ascii.eqb c "-" then "_"%char else ascii_upper c).
Proof.
  intros _. unfold utils.format_whisper_model_name.
  induction model_name as [|x s [IH1 IH2]]; [done|].
  split; [simpl; by rewrite IH1|].
  intros [|i] c; simpl.
  - intros [= ->]. by destruct (Ascii.eqb c "-").
  - apply IH2.
Qed.

Lemma X12_witness :
  String.length (utils.format_whisper_model_name "large-v1") = 8%nat.
Proof.
  exact (proj1 (X12_format_whisper_model_name_pointwise "large-v1" I)).
Defined.

(** X13. For a name of characters below 128, the key that
    [format_whisper_model_name] returns has no dash and no lower-case
    letter and is again such a name; formatting a key again changes
    nothing; and a name maps to the same key when its dashes are written
    as underscores or its letters as capitals. *)
Theorem X13_format_whisper_model_name_key model_name :
  Is_true (str_is_ascii model_name) →
  let key := utils.format_whisper_model_name model_name in
  Is_true (str_is_ascii key)
  ∧ Is_true (str_lacks "-" key)
  ∧ (∀ i c, String.get i key = Some c → is_lower c = false)
  ∧ utils.format_whisper_model_name key = key
  ∧ utils.format_whisper_model_name (str_replace1 "-" "_" model_name) = key
  ∧ utils.format_whisper_model_name (str_upper model_name) = key.
Proof.
  unfold utils.format_whisper_model_name.
  induction model_name as [|x s IH]; [done|].
  simpl. intros [Hx Hs]%andb_prop_elim.
  destruct (IH Hs) as (IH1 & IH2 & IH3 & IH4 & IH5 & IH6).
  assert (Hy : ∀ y, (if Ascii.eqb (ascii_upper y) "-" then "_"%char
                     else ascii_upper y) = ascii_upper y ∨ y = "-"%char).
  { intros y. rewrite ascii_upper_dash.
    destruct (Ascii.eqb_spec y "-"); [by right|by left]. }
  split; [|split; [|split; [|split; [|split]]]].
  - apply andb_prop_intro. split; [|done].
    apply Is_true_true, Nat.ltb_lt, ascii_upper_below.
    destruct (Ascii.eqb x "-"); [change (nat_of_ascii "_") with 95%nat; lia|].
    by apply Is_true_true, Nat.ltb_lt in Hx.
  - apply andb_prop_intro. split; [|done].
    apply negb_prop_intro. rewrite ascii_upper_dash.
    destruct (Ascii.eqb_spec x "-") as [->|Hne]; [simpl; tauto|].
    intros H. apply Is_true_true in H. by apply Ascii.eqb_eq in H.
  - intros [|i] c; simpl; [|apply IH3].
    intros [= <-]. apply ascii_upper_not_lower.
  - rewrite IH4. f_equal. rewrite ascii_upper_dash.
    destruct (Ascii.eqb_spec x "-") as [->|Hne]; [done|].
    destruct (Ascii.eqb_spec x "-"); [done|]. apply ascii_upper_idem.
  - rewrite IH5. f_equal.
    destruct (Ascii.eqb_spec x "-") as [->|Hne]; [done|].
    by destruct (Ascii.eqb_spec x "-").
  - rewrite IH6. f_equal. rewrite ascii_upper_dash.
    destruct (Ascii.eqb_spec x "-") as [->|Hne]; [done|]. apply ascii_upper_idem.
Qed.

Lemma X13_witness :
  utils.format_whisper_model_name (utils.format_whisper_model_name "large-v1")
  = utils.format_whisper_model_name "large-v1".
Proof.
  exact (proj1 (proj2 (proj2 (proj2
           (X13_format_whisper_model_name_key "large-v1" I))))).
Defined.

(** ** [reformat_chunk] *)

Lemma length_concat_uniform {A} (n : nat) (l : list (list A)) :
  Forall (λ row, length row = n) l →
  length (List.concat l) = (length l * n)%nat.
Proof.
  induction 1 as [|row l Hrow _ IH]; [reflexivity|].
  simpl. rewrite length_app, IH, Hrow. reflexivity.
Qed.

Lemma lookup_concat_uniform {A} (n : nat) (l : list (list A)) :
  Forall (λ row, length row = n) l →
  ∀ i j row x, l !! i = Some row → row !! j = Some x →
    List.concat l !! (i * n + j)%nat = Some x.
Proof.
  induction 1 as [|r l Hr _ IH]; intros i j row x Hi Hj; [done|].
  destruct i as [|i]; simpl in Hi.
  - injection Hi as ->. simpl. by apply lookup_app_l_Some.
  - simpl List.concat. rewrite lookup_app_r by (rewrite Hr; simpl; lia).
    replace (S i * n + j - length r)%nat with (i * n + j)%nat
      by (rewrite Hr; simpl; lia).
    by apply (IH i j row x).
Qed.

Lemma concat_fmap_map {A B} (f : A → B) (l : list (list A)) :
  List.concat (map f <$> l) = map f (List.concat l).
Proof.
  induction l as [|r l IH]; [reflexivity|].
  rewrite fmap_cons. simpl. by rewrite IH, map_app.
Qed.

Lemma concat_concat_fmap {A} (l : list (list (list A))) :
  List.concat (List.concat l) = List.concat ((λ r, List.concat r) <$> l).
Proof.
  induction l as [|r l IH]; [reflexivity|].
  rewrite fmap_cons. simpl. by rewrite List.concat_app, IH.
Qed.

Lemma reformat_chunk_spec float32 chunk :
  utils.reformat_chunk float32 chunk
  = map float32 (List.concat (np.rows (SlidingWindowFeature.data chunk))).
Proof. apply concat_fmap_map. Qed.

(** X14. For a buffer whose rows all have [ncols] elements,
    [reformat_chunk] returns [frames * channels] numbers in row-major
    order: the sample of frame [i] and channel [j], converted, stands at
    index [i * channels + j]. *)
Theorem X14_reformat_chunk_row_major float32 chunk :
  ndarray_wf (SlidingWindowFeature.data chunk) →
  length (utils.reformat_chunk float32 chunk)
  = (np.shape0 (SlidingWindowFeature.data chunk)
     * np.ncols (SlidingWindowFeature.data chunk))%nat
  ∧ ∀ i j row x,
      np.rows (SlidingWindowFeature.data chunk) !! i = Some row →
      row !! j = Some x →
      utils.reformat_chunk float32 chunk
        !! (i * np.ncols (SlidingWindowFeature.data chunk) + j)%nat
      = Some (float32 x).
Proof.
  intros Hwf. rewrite reformat_chunk_spec. split.
  - rewrite length_map. by apply length_concat_uniform.
  - intros i j row x Hi Hj. rewrite list_lookup_fmap.
    by rewrite (lookup_concat_uniform _ _ Hwf i j row x Hi Hj).
Qed.

Lemma X14_witness :
  length (utils.reformat_chunk (λ x, x) (example_waveform 3 500000 100000 0))
  = (3 * 1)%nat.
Proof.
  refine (proj1 (X14_reformat_chunk_row_major (λ x, x)
                   (example_waveform 3 500000 100000 0) _)).
  unfold ndarray_wf. simpl. repeat constructor.
Defined.

(** X15. Flattening the buffer that [concat] returns gives the
    flattened buffers of the chunks one after the other, in the order
    of the chunks. *)
Theorem X15_reformat_chunk_of_concat float32 chunks collar a w :
  utils.concat chunks collar = Ok (a, w) →
  utils.reformat_chunk float32 w
  = List.concat (utils.reformat_chunk float32 <$> chunks.*2).
Proof.
  intros Hrun.
  destruct (concat_inv _ _ _ _ Hrun) as (c0 & rest & _ & _ & _ & Hdata).
  apply np_concatenate_shape in Hdata as [Hrows _].
  rewrite reformat_chunk_spec, Hrows, <- list_fmap_compose.
  rewrite concat_concat_fmap, <- list_fmap_compose.
  rewrite <- concat_fmap_map, <- !list_fmap_compose.
  f_equal. apply list_fmap_ext. intros _ [a' w'] _. simpl.
  symmetry. apply reformat_chunk_spec.
Qed.

Lemma X15_witness :
  ∃ a w, utils.concat example_chunks 50000 = Ok (a, w)
    ∧ utils.reformat_chunk (λ x, x) w
      = List.concat (utils.reformat_chunk (λ x, x) <$> example_chunks.*2).
Proof.
  destruct (example_chunks_ok 50000) as (a & w & Hrun).
  exists a, w. split; [exact Hrun|].
  exact (X15_reformat_chunk_of_concat (λ x, x) example_chunks 50000 a w Hrun).
Defined.

(** ** More about the JSON formatters *)

Lemma fmap_eq_inj {A B} (f : A → B) :
  (∀ x y, f x = f y → x = y) →
  ∀ l l' : list A, f <$> l = f <$> l' → l = l'.
Proof.
  intros Hf l. induction l as [|x l IH]; intros [|y l'] H; try done.
  rewrite !fmap_cons in H. injection H as Hxy Hl.
  f_equal; [by apply Hf|by apply IH].
Qed.

Lemma jsonify_word_inj w w' :
  utils.jsonify_word w = utils.jsonify_word w' → w = w'.
Proof.
  destruct w, w'. unfold utils.jsonify_word. simpl.
  intros H. injection H as -> -> -> ->. reflexivity.
Qed.

Lemma jsonify_segment_inj s s' :
  utils.jsonify_segment s = utils.jsonify_segment s' → s = s'.
Proof.
  destruct s, s'. unfold utils.jsonify_segment. simpl.
  intros H. injection H as -> -> -> -> Htok -> -> -> -> -> Hwords.
  apply (fmap_eq_inj PInt) in Htok as ->; [|by intros x y [= ->]].
  apply (fmap_eq_inj utils.jsonify_word) in Hwords as ->;
    [|apply jsonify_word_inj].
  reflexivity.
Qed.

(** X16. [format_transcription] loses nothing of what it is given: two
    calls that return the same document were given the same segments,
    field by field and word by word, and the same language. *)
Theorem X16_format_transcription_lossless segments info segments' info' :
  utils.format_transcription segments info
  = utils.format_transcription segments' info' →
  segments = segments' ∧ info = info'.
Proof.
  unfold utils.format_transcription. destruct info, info'. simpl.
  intros H. injection H as -> _ Hsegs. split; [|reflexivity].
  exact (fmap_eq_inj utils.jsonify_segment jsonify_segment_inj _ _ Hsegs).
Qed.

Lemma X16_witness :
  [RecognizedSegment.mk 0 0 1 " Hello" [1] 0 0 1 0 0 [Word.mk " Hello" 0 1 1]]
  = [RecognizedSegment.mk 0 0 1 " Hello" [1] 0 0 1 0 0 [Word.mk " Hello" 0 1 1]]
  ∧ TranscriptionInfo.mk "en" = TranscriptionInfo.mk "en".
Proof.
  apply (X16_format_transcription_lossless
           [RecognizedSegment.mk 0 0 1 " Hello" [1] 0 0 1 0 0 [Word.mk " Hello" 0 1 1]]
           (TranscriptionInfo.mk "en")).
  reflexivity.
Defined.

(** X17. Both formatters work piece by piece: the turns of two lists of
    tuples one after the other are the turns of the first followed by
    the turns of the second, and the text of two lists of segments one
    after the other is the text of the first followed by the text of the
    second. *)
Theorem X17_formatters_append SPEAKER_MAPPING
    (t1 t2 : list (Z * string * float * float))
    (s1 s2 : list RecognizedSegment.t) :
  utils.jsonify_transcription SPEAKER_MAPPING (t1 ++ t2)
  = utils.jsonify_transcription SPEAKER_MAPPING t1
    ++ utils.jsonify_transcription SPEAKER_MAPPING t2
  ∧ utils.concatenate_segments (s1 ++ s2)
    = (utils.concatenate_segments s1 ++ utils.concatenate_segments s2)%string.
Proof.
  split.
  - rewrite !jsonify_transcription_spec. apply fmap_app.
  - rewrite !concatenate_segments_spec, fmap_app. unfold join.
    induction (RecognizedSegment.text <$> s1) as [|x l IH]; [reflexivity|].
    cbn [foldr app]. rewrite IH. symmetry. apply str_app_assoc.
Qed.

(** ** The file helpers *)

Lemma str_rfind_ge c s : -1 ≤ str_rfind c s.
Proof.
  induction s as [|x s IH]; simpl; [lia|].
  destruct (0 <=? str_rfind c s) eqn:E; [apply Z.leb_le in E; lia|].
  destruct (Ascii.eqb x c); lia.
Qed.

Lemma str_rfind_lacks c s : Is_true (str_lacks c s) → str_rfind c s = -1.
Proof.
  induction s as [|x s IH]; simpl; [done|].
  intros [Hx Hs]%andb_prop_elim. rewrite (IH Hs). simpl.
  destruct (Ascii.eqb x c); [done|reflexivity].
Qed.

Lemma str_rfind_app c (p r : string) :
  0 ≤ str_rfind c r →
  str_rfind c (p ++ r) = Z.of_nat (String.length p) + str_rfind c r.
Proof.
  intros Hr. induction p as [|x p IH]; [reflexivity|].
  change (String x p ++ r)%string with (String x (p ++ r)).
  cbn [str_rfind String.length]. rewrite IH.
  destruct (0 <=? _) eqn:E; [lia|]. apply Z.leb_gt in E. lia.
Qed.

Lemma str_take_app (p r : string) n :
  str_take (String.length p + n) (p ++ r) = (p ++ str_take n r)%string.
Proof.
  induction p as [|x p IH]; [reflexivity|].
  change (String x p ++ r)%string with (String x (p ++ r)).
  change (String x p ++ str_take n r)%string with (String x (p ++ str_take n r)).
  cbn [String.length Nat.add str_take]. by rewrite IH.
Qed.

Lemma str_all_app c (p r : string) :
  str_all c (p ++ r) = str_all c p && str_all c r.
Proof.
  induction p as [|x p IH]; [reflexivity|].
  change (String x p ++ r)%string with (String x (p ++ r)).
  cbn [str_all]. by rewrite IH, andb_assoc.
Qed.

Lemma str_rstrip_all c s : str_all c s = true → str_rstrip c s = EmptyString.
Proof. destruct s as [|x s]; [done|]. cbn [str_rstrip]. by intros ->. Qed.

Lemma str_rstrip_app c (p r : string) x :
  x ≠ c → str_all c r = true →
  str_rstrip c (p ++ String x r) = (p ++ String x EmptyString)%string.
Proof.
  intros Hx Hr. apply Ascii.eqb_neq in Hx.
  induction p as [|y p IH].
  - change (str_rstrip c (String x r) = String x EmptyString).
    cbn [str_rstrip str_all]. rewrite Hx. simpl. by rewrite str_rstrip_all.
  - change (String y p ++ String x r)%string with (String y (p ++ String x r)).
    change (String y p ++ String x EmptyString)%string
      with (String y (p ++ String x EmptyString)).
    cbn [str_rstrip str_all]. rewrite str_all_app. cbn [str_all]. rewrite Hx.
    rewrite andb_false_r, andb_false_r. by rewrite IH.
Qed.

(** The directory of a name without separator is empty. *)
Lemma dirname_bare p :
  Is_true (str_lacks os_path.sep p) → os_path.dirname p = EmptyString.
Proof.
  intros Hp. unfold os_path.dirname. rewrite (str_rfind_lacks _ _ Hp).
  by destruct p.
Qed.

(** The directory of [d/f], where [d] does not end with a separator and
    [f] has none, is [d]. *)
Lemma dirname_join (d f : string) c :
  c ≠ os_path.sep → Is_true (str_lacks os_path.sep f) →
  os_path.dirname (d ++ String c (String os_path.sep f))
  = (d ++ String c EmptyString)%string.
Proof.
  intros Hc Hf. unfold os_path.dirname.
  assert (Hsplit : (d ++ String c (String os_path.sep f)
                    = (d ++ String c EmptyString) ++ String os_path.sep f)%string).
  { by rewrite str_app_assoc. }
  rewrite Hsplit.
  assert (Hk : str_rfind os_path.sep (String os_path.sep f) = 0).
  { cbn [str_rfind]. by rewrite (str_rfind_lacks _ _ Hf). }
  rewrite str_rfind_app by (rewrite Hk; lia). rewrite Hk.
  replace (Z.to_nat (Z.of_nat (String.length (d ++ String c EmptyString)) + 0 + 1))
    with (String.length (d ++ String c EmptyString) + 1)%nat by lia.
  rewrite str_take_app.
  change (str_take 1 (String os_path.sep f)) with (String os_path.sep EmptyString).
  rewrite str_app_assoc.
  change (String c EmptyString ++ String os_path.sep EmptyString)%string
    with (String c (String os_path.sep EmptyString)).
  assert (Hall : str_all os_path.sep (d ++ String c (String os_path.sep EmptyString))
                 = false).
  { rewrite str_all_app. cbn [str_all].
    apply Ascii.eqb_neq in Hc. rewrite Hc. by rewrite andb_false_r. }
  rewrite Hall.
  assert (Hne : String.eqb (d ++ String c (String os_path.sep EmptyString)) EmptyString
                = false).
  { by destruct d. }
  rewrite Hne. simpl negb. cbn [andb].
  by apply str_rstrip_app.
Qed.

(** X18. [delete_temp_folder] removes the directory that holds the
    path, not the path: for [d/f], where [d] does not end with a
    separator and [f] has none (possibly empty), the tree removed is
    [d] when it exists; an exception of [rmtree] is logged as a warning
    and not raised; when [d] does not exist nothing is changed. *)
Theorem X18_delete_temp_folder_removes_parent {fs E : Type} (os : os_ops fs E)
    (d f : string) c (σ : fs) :
  c ≠ os_path.sep → Is_true (str_lacks os_path.sep f) →
  let folder := (d ++ String c EmptyString)%string in
  utils.delete_temp_folder os (d ++ String c (String os_path.sep f)) σ
  = if os_path_exists os σ folder
    then match shutil_rmtree os σ folder with
         | (σ1, Returned) => (σ1, [Info_deleted folder], Returned)
         | (σ1, Raised e) => (σ1, [Warning_delete_failed folder e], Returned)
         end
    else (σ, [Info_missing folder], Returned).
Proof.
  intros Hc Hf folder. unfold utils.delete_temp_folder.
  rewrite (dirname_join d f c Hc Hf). fold folder.
  assert (Hne : String.eqb folder EmptyString = false) by (unfold folder; by destruct d).
  rewrite Hne. reflexivity.
Qed.

Lemma X18_witness :
  utils.delete_temp_folder example_os "/tmp/audio/batch.wav" {[ "/tmp/audio"%string ]}
  = (∅, [Info_deleted "/tmp/audio"], Returned).
Proof.
  refine (eq_trans
    (X18_delete_temp_folder_removes_parent example_os "/tmp/audi" "batch.wav" "o"
       {[ "/tmp/audio"%string ]} _ I) _).
  - discriminate.
  - vm_compute. reflexivity.
Defined.

(** X19. For a bare file name, one without separator, neither helper
    looks at a directory: [save_batch_to_wav] writes the file in place
    and creates nothing, and [delete_temp_folder] changes nothing and
    logs that the folder with the empty name does not exist. *)
Theorem X19_bare_file_name {fs E : Type} (os : os_ops fs E) (path : string)
    batch sample_rate (σ : fs) :
  Is_true (str_lacks os_path.sep path) →
  utils.save_batch_to_wav os batch path sample_rate σ
  = match wavfile_write os σ path sample_rate batch with
    | (σ2, Raised e) => (σ2, [], Raised e)
    | (σ2, Returned) => (σ2, [Info_saved path], Returned)
    end
  ∧ utils.delete_temp_folder os path σ = (σ, [Info_missing EmptyString], Returned).
Proof.
  intros Hp. unfold utils.save_batch_to_wav, utils.delete_temp_folder.
  rewrite (dirname_bare path Hp). split; reflexivity.
Qed.

Lemma X19_witness :
  utils.delete_temp_folder example_os "batch.wav" {[ "/tmp/audio"%string ]}
  = ({[ "/tmp/audio"%string ]}, [Info_missing EmptyString], Returned).
Proof.
  exact (proj2 (X19_bare_file_name example_os "batch.wav" [] 16000
                  {[ "/tmp/audio"%string ]} I)).
Defined.

(** X20. [save_batch_to_wav] on [d/f], where [d] does not end with a
    separator and [f] has none: [d] is created exactly when it does not
    exist; an exception of [makedirs] or of the write reaches the
    caller, and then nothing is logged; after an exception of
    [makedirs] nothing is written. *)
Theorem X20_save_batch_to_wav_creates_parent {fs E : Type} (os : os_ops fs E)
    (d f : string) c batch sample_rate (σ : fs) :
  c ≠ os_path.sep → Is_true (str_lacks os_path.sep f) →
  let folder := (d ++ String c EmptyString)%string in
  let path := (d ++ String c (String os_path.sep f))%string in
  let write σ1 :=
    match wavfile_write os σ1 path sample_rate batch with
    | (σ2, Raised e) => (σ2, [], Raised e)
    | (σ2, Returned) => (σ2, [Info_saved path], Returned)
    end in
  utils.save_batch_to_wav os batch path sample_rate σ
  = if os_path_exists os σ folder then write σ
    else match os_makedirs os σ folder with
         | (σ1, Raised e) => (σ1, [], Raised e)
         | (σ1, Returned) => write σ1
         end.
Proof.
  intros Hc Hf folder path write. unfold utils.save_batch_to_wav.
  assert (Hdir : os_path.dirname path = folder) by exact (dirname_join d f c Hc Hf).
  rewrite Hdir.
  assert (Hne : String.eqb folder EmptyString = false) by (unfold folder; by destruct d).
  rewrite Hne. simpl negb. cbn [andb].
  destruct (os_path_exists os σ folder); simpl negb; cbv iota.
  - reflexivity.
  - destruct (os_makedirs os σ folder) as [σ1 [|e]]; reflexivity.
Qed.

Lemma X20_witness :
  utils.save_batch_to_wav example_os [] "/tmp/audio/batch.wav" 16000 ∅
  = ({[ "/tmp/audio"%string ]}, [Info_saved "/tmp/audio/batch.wav"], Returned).
Proof.
  refine (eq_trans
    (X20_save_batch_to_wav_creates_parent example_os "/tmp/audi" "batch.wav" "o"
       [] 16000 ∅ _ I) _).
  - discriminate.
  - vm_compute. reflexivity.
Defined.

(** X21. [cleanup] never raises, whatever the path and whatever the
    file system does, and logs exactly one record; the file system is
    left as it was, or as [rmtree] of the path's directory left it. *)
Theorem X21_cleanup_never_raises {fs E : Type} (os : os_ops fs E)
    (temp_path : string) (σ : fs) :
  ∃ σ' record,
    utils.cleanup os temp_path σ = (σ', [record], Returned)
    ∧ (σ' = σ ∨ σ' = (shutil_rmtree os σ (os_path.dirname temp_path)).1).
Proof.
  unfold utils.cleanup, utils.delete_temp_folder.
  destruct (negb _ && _).
  - destruct (shutil_rmtree os σ _) as [σ1 [|e]]; eexists _, _; split;
      try reflexivity; by right.
  - eexists _, _. split; [reflexivity|by left].
Qed.
